(** * OpenAPI analyzer: the in-memory query engine

    A shallow embedding of the query methods of [OpenAPIAnalyzer]
    (src/index.ts) and of the tool-call handler that dispatches to them,
    with the properties of the specification proved about it.

    Conventions of the embedding.
    - A value of TypeScript type [any] is a [json] value; numbers are
      integers (they only occur as opaque payload and in [String(x)]).
    - [Record<string, any>] is an association list in [Object.entries]
      order.  A JavaScript object has each key once; where a statement
      depends on it this is the hypothesis [NoDup (Object_keys o)].
      Property reads are reads of own properties: what an object
      inherits from [Object.prototype] is not part of the map.
    - The interfaces of the source are records with the source's field
      names, each in a module of the interface's name.  Values are typed
      as the interfaces and the casts of the source type them: a path item
      is a record ([pathItem as Record<string, any>]), a security scheme
      an object, a scheme type a string (the key of a
      [Map<string, string[]>]), a tool argument a string.  A value that
      contradicts a cast, such as a [null] path item or scheme, on which
      the source raises a TypeError, is outside the model.
    - Strings are sequences of ASCII characters; [toLowerCase] and
      [toUpperCase] act on the letters A-Z and a-z.
    - Result dictionaries built with [obj[k] = (obj[k] || 0) + 1] and the
      [Map] of [findInconsistencies] are finite maps ([gmap]); the order
      in which JSON.stringify prints their keys is not modelled.
    - The methods read [this.specs]; the functions below take it as their
      first argument, and [Module Analyzer] wraps them as state-passing
      methods of the class. *)

From Stdlib Require Import String Ascii ZArith List Bool Lia.
From stdpp Require Import base decidable option list gmap strings sorting pretty fin_maps fin_sets.

#[local] Open Scope string_scope.
#[local] Open Scope list_scope.
#[local] Set Warnings "-register-all,-clear-no-such-hyp".

(** ** Strings *)

Definition is_upper (c : ascii) : bool :=
  let n := nat_of_ascii c in (65 <=? n)%nat && (n <=? 90)%nat.

Definition is_lower (c : ascii) : bool :=
  let n := nat_of_ascii c in (97 <=? n)%nat && (n <=? 122)%nat.

Definition lower_char (c : ascii) : ascii :=
  if is_upper c then ascii_of_nat (nat_of_ascii c + 32) else c.

Definition upper_char (c : ascii) : ascii :=
  if is_lower c then ascii_of_nat (nat_of_ascii c - 32) else c.

(** [String.prototype.toLowerCase] *)
Fixpoint toLowerCase (s : string) : string :=
  match s with
  | EmptyString => EmptyString
  | String c r => String (lower_char c) (toLowerCase r)
  end.

(** [String.prototype.toUpperCase] *)
Fixpoint toUpperCase (s : string) : string :=
  match s with
  | EmptyString => EmptyString
  | String c r => String (upper_char c) (toUpperCase r)
  end.

(** [hay.includes(needle)]: [needle] occurs in [hay] at some offset. *)
Fixpoint includes (hay needle : string) : bool :=
  String.prefix needle hay ||
  match hay with
  | EmptyString => false
  | String _ rest => includes rest needle
  end.

(** [items.join(sep)] on an array of strings. *)
Definition join (sep : string) (items : list string) : string :=
  String.concat sep items.

(** A string is truthy when it is not empty. *)
Definition nonempty (s : string) : bool :=
  match s with EmptyString => false | _ => true end.

(** [o || d] for an optional string [o]. *)
Definition str_or (o : option string) (d : string) : string :=
  match o with
  | Some s => if nonempty s then s else d
  | None => d
  end.

(** ** JSON values: the type [any] *)

Inductive json : Type :=
| JNull
| JBool (b : bool)
| JNum (n : Z)
| JStr (s : string)
| JArr (items : list json)
| JObj (fields : list (string * json)).

(** [Record<string, any>] *)
Abbreviation Record_any := (list (string * json)).

Definition Object_keys {A} (o : list (string * A)) : list string := map fst o.

Definition Object_entries {A} (o : list (string * A)) : list (string * A) := o.

(** [o[k]] on a record: the own property [k], [undefined] when absent. *)
Fixpoint lookup_key {A} (k : string) (o : list (string * A)) : option A :=
  match o with
  | [] => None
  | (k', v) :: rest => if String.eqb k' k then Some v else lookup_key k rest
  end.

(** [j[k]] / [j.k] on a value that is not null: the own property [k] of an
    object.  The engine reads field and schema names; the [length] and the
    indices of arrays and strings are not among them and are not modelled. *)
Definition prop (j : json) (k : string) : option json :=
  match j with
  | JObj fields => lookup_key k fields
  | _ => None
  end.

(** JavaScript truthiness. *)
Definition truthy (j : json) : bool :=
  match j with
  | JNull => false
  | JBool b => b
  | JNum n => negb (n =? 0)%Z
  | JStr s => nonempty s
  | JArr _ | JObj _ => true
  end.

(** [typeof j === 'object' && j !== null] *)
Definition is_object (j : json) : bool :=
  match j with
  | JArr _ | JObj _ => true
  | _ => false
  end.

(** [String(j)], the conversion [Array.prototype.join] applies to its
    elements. *)
Fixpoint js_toString (j : json) : string :=
  match j with
  | JNull => "null"
  | JBool true => "true"
  | JBool false => "false"
  | JNum n => pretty n
  | JStr s => s
  | JArr items =>
      join "," (map (fun x => match x with JNull => "" | _ => js_toString x end) items)
  | JObj _ => "[object Object]"
  end.

(** [o || ''] for an optional property [o]. *)
Definition or_empty (o : option json) : json :=
  match o with
  | Some v => if truthy v then v else JStr ""
  | None => JStr ""
  end.

(** ** The interfaces of index.ts *)

Module OpenAPIInfo.
Record t : Type := Build {
  title : option string;
  version : option string;
  description : option string
}.
End OpenAPIInfo.

(** [spec.info?.title] and its siblings. *)
Definition info_title (i : option OpenAPIInfo.t) : option string := i ≫= OpenAPIInfo.title.
Definition info_version (i : option OpenAPIInfo.t) : option string := i ≫= OpenAPIInfo.version.
Definition info_description (i : option OpenAPIInfo.t) : option string := i ≫= OpenAPIInfo.description.

(** A path item is what the source casts it to: [pathItem as Record<string, any>]. *)
Abbreviation PathItem := (list (string * json)).

Module OpenAPISpec.
Record t : Type := Build {
  filename : string;
  spec : Record_any;
  info : option OpenAPIInfo.t;
  paths : option (list (string * PathItem));
  components : option Record_any
}.
End OpenAPISpec.

Module ApiSummary.
Record t : Type := Build {
  filename : string;
  title : string;
  version : string;
  description : string;
  endpointCount : nat
}.
End ApiSummary.

Module SearchResult.
Record t : Type := Build {
  filename : string;
  api_title : option string;
  path : string;
  method : string;
  summary : option json;
  description : option json;
  operationId : option json
}.
End SearchResult.

Module ApiEntry.
Record t : Type := Build {
  filename : string;
  title : option string;
  version : option string;
  endpointCount : nat;
  methods : list string
}.
End ApiEntry.

Module ApiStats.
Record t : Type := Build {
  totalApis : nat;
  totalEndpoints : nat;
  methodCounts : gmap string nat;
  commonPaths : gmap string nat;
  versions : gmap string nat;
  apis : list ApiEntry.t
}.
End ApiStats.

Module Inconsistency.
Record t : Type := Build {
  type : string;
  message : string;
  details : gmap string (list string)
}.
End Inconsistency.

Module SchemaComparison.
Record t : Type := Build {
  filename : string;
  api : option string;
  schemaName : string;
  schema : json
}.
End SchemaComparison.

Module LoadSource.
Inductive kind : Type := Discovery | Urls | Folder.
Record t : Type := Build {
  type : kind;
  url : option string;
  urls : option (list string);
  folder : option string;
  count : nat;
  metadata : option json
}.
End LoadSource.

(** ** The query engine *)

Section Engine.

Implicit Types (specs : list OpenAPISpec.t) (spec : OpenAPISpec.t).

(** [listAllSpecs] *)
Definition listAllSpecs specs : list ApiSummary.t :=
  map (fun spec =>
         {| ApiSummary.filename := OpenAPISpec.filename spec;
            ApiSummary.title := str_or (info_title (OpenAPISpec.info spec)) "No title";
            ApiSummary.version := str_or (info_version (OpenAPISpec.info spec)) "No version";
            ApiSummary.description :=
              str_or (info_description (OpenAPISpec.info spec)) "No description";
            ApiSummary.endpointCount :=
              match OpenAPISpec.paths spec with
              | Some paths => length (Object_keys paths)
              | None => 0
              end |})
      specs.

(** [getSpecByFilename]: [None] is the source's [null]. *)
Definition getSpecByFilename specs (filename : string) : option Record_any :=
  match List.find (fun s => String.eqb (OpenAPISpec.filename s) filename) specs with
  | Some spec => Some (OpenAPISpec.spec spec)
  | None => None
  end.

(** The text one operation is searched in. *)
Definition searchableText (path method : string) (operationObj : json) : string :=
  toLowerCase
    (join " " [ path; method;
                js_toString (or_empty (prop operationObj "summary"));
                js_toString (or_empty (prop operationObj "description"));
                js_toString (or_empty (prop operationObj "operationId")) ]).

(** Body of the innermost loop of [searchEndpoints]. *)
Definition search_operation (lowerQuery : string) spec (path : string)
    (results : list SearchResult.t) (entry : string * json) : list SearchResult.t :=
  let '(method, operation) := entry in
  if negb (is_object operation) then results
  else if includes (searchableText path method operation) lowerQuery then
    results ++ [ {| SearchResult.filename := OpenAPISpec.filename spec;
                    SearchResult.api_title := info_title (OpenAPISpec.info spec);
                    SearchResult.path := path;
                    SearchResult.method := toUpperCase method;
                    SearchResult.summary := prop operation "summary";
                    SearchResult.description := prop operation "description";
                    SearchResult.operationId := prop operation "operationId" |} ]
  else results.

Definition search_path (lowerQuery : string) spec
    (results : list SearchResult.t) (entry : string * PathItem) : list SearchResult.t :=
  let '(path, pathItem) := entry in
  foldl (search_operation lowerQuery spec path) results (Object_entries pathItem).

Definition search_spec (lowerQuery : string)
    (results : list SearchResult.t) spec : list SearchResult.t :=
  match OpenAPISpec.paths spec with
  | None => results
  | Some paths => foldl (search_path lowerQuery spec) results (Object_entries paths)
  end.

(** [searchEndpoints] *)
Definition searchEndpoints specs (query : string) : list SearchResult.t :=
  let lowerQuery := toLowerCase query in
  foldl (search_spec lowerQuery) [] specs.

(** Offset of the first closing brace. *)
Fixpoint find_close (s : string) : option nat :=
  match s with
  | EmptyString => None
  | String c rest => if Ascii.eqb c "}" then Some 0 else S <$> find_close rest
  end.

(** [s.replace(/\{[^}]+\}/g, '{id}')], scanning left to right; [skip] counts
    the characters of the current match that are still to be dropped. *)
Fixpoint replace_params (skip : nat) (s : string) : string :=
  match s with
  | EmptyString => EmptyString
  | String c rest =>
      match skip with
      | S k => replace_params k rest
      | O =>
          if Ascii.eqb c "{" then
            match find_close rest with
            | Some (S k) => "{id}" +:+ replace_params (S (S k)) rest
            | _ => String c (replace_params 0 rest)
            end
          else String c (replace_params 0 rest)
      end
  end.

Definition pathPattern (path : string) : string := replace_params 0 path.

Definition httpMethods : list string :=
  ["get"; "post"; "put"; "delete"; "patch"; "options"; "head"].

(** [counts[k] = (counts[k] || 0) + 1] *)
Definition bump (k : string) (counts : gmap string nat) : gmap string nat :=
  <[k := default 0 (counts !! k) + 1]> counts.

(** [set.add(x)] on a [Set<string>], kept in insertion order. *)
Definition Set_add (x : string) (set : list string) : list string :=
  if bool_decide (x ∈ set) then set else set ++ [x].

(** [Array.from(set).sort()]: ascending by character code. *)
Definition string_le (a b : string) : Prop := Is_true (String.leb a b).

#[local] Instance string_le_dec : RelDecision string_le.
Proof. intros a b; unfold string_le; apply _. Defined.

Definition sort_strings (l : list string) : list string := merge_sort string_le l.

(** The variables the loops of [getApiStats] update. *)
Record stats_loop : Type := StatsLoop {
  loop_stats : ApiStats.t;
  loop_endpointCount : nat;
  loop_apiMethods : list string
}.

Definition with_methodCounts (f : gmap string nat -> gmap string nat) (st : ApiStats.t) :=
  {| ApiStats.totalApis := ApiStats.totalApis st;
     ApiStats.totalEndpoints := ApiStats.totalEndpoints st;
     ApiStats.methodCounts := f (ApiStats.methodCounts st);
     ApiStats.commonPaths := ApiStats.commonPaths st;
     ApiStats.versions := ApiStats.versions st;
     ApiStats.apis := ApiStats.apis st |}.

Definition with_commonPaths (f : gmap string nat -> gmap string nat) (st : ApiStats.t) :=
  {| ApiStats.totalApis := ApiStats.totalApis st;
     ApiStats.totalEndpoints := ApiStats.totalEndpoints st;
     ApiStats.methodCounts := ApiStats.methodCounts st;
     ApiStats.commonPaths := f (ApiStats.commonPaths st);
     ApiStats.versions := ApiStats.versions st;
     ApiStats.apis := ApiStats.apis st |}.

(** Body of the loop over the keys of one path item. *)
Definition stats_method (s : stats_loop) (method : string) : stats_loop :=
  if bool_decide (toLowerCase method ∈ httpMethods) then
    let upperMethod := toUpperCase method in
    {| loop_stats := with_methodCounts (bump upperMethod) (loop_stats s);
       loop_endpointCount := S (loop_endpointCount s);
       loop_apiMethods := Set_add upperMethod (loop_apiMethods s) |}
  else s.

(** Body of the loop over the entries of [spec.paths]. *)
Definition stats_path (s : stats_loop) (entry : string * PathItem) : stats_loop :=
  let '(path, pathItem) := entry in
  let s' := foldl stats_method s (Object_keys pathItem) in
  {| loop_stats := with_commonPaths (bump (pathPattern path)) (loop_stats s');
     loop_endpointCount := loop_endpointCount s';
     loop_apiMethods := loop_apiMethods s' |}.

(** Body of the loop over [this.specs]. *)
Definition stats_spec (stats : ApiStats.t) spec : ApiStats.t :=
  let s0 := {| loop_stats := stats; loop_endpointCount := 0; loop_apiMethods := [] |} in
  let s :=
    match OpenAPISpec.paths spec with
    | Some paths => foldl stats_path s0 (Object_entries paths)
    | None => s0
    end in
  let stats := loop_stats s in
  let version := str_or (info_version (OpenAPISpec.info spec)) "unknown" in
  {| ApiStats.totalApis := ApiStats.totalApis stats;
     ApiStats.totalEndpoints := ApiStats.totalEndpoints stats + loop_endpointCount s;
     ApiStats.methodCounts := ApiStats.methodCounts stats;
     ApiStats.commonPaths := ApiStats.commonPaths stats;
     ApiStats.versions := bump version (ApiStats.versions stats);
     ApiStats.apis :=
       ApiStats.apis stats ++
       [ {| ApiEntry.filename := OpenAPISpec.filename spec;
            ApiEntry.title := info_title (OpenAPISpec.info spec);
            ApiEntry.version := info_version (OpenAPISpec.info spec);
            ApiEntry.endpointCount := loop_endpointCount s;
            ApiEntry.methods := sort_strings (loop_apiMethods s) |} ] |}.

(** [getApiStats] *)
Definition getApiStats specs : ApiStats.t :=
  foldl stats_spec
        {| ApiStats.totalApis := length specs;
           ApiStats.totalEndpoints := 0;
           ApiStats.methodCounts := ∅;
           ApiStats.commonPaths := ∅;
           ApiStats.versions := ∅;
           ApiStats.apis := [] |}
        specs.

(** [Object.entries(x as Record<string, any>)] on a value that passed a
    truthiness test: own enumerable properties, indices for arrays and
    strings. *)
Definition json_entries (j : json) : list (string * json) :=
  match j with
  | JObj fields => fields
  | JArr items => imap (fun i v => (pretty i, v)) items
  | JStr s => imap (fun i c => (pretty i, JStr (String c EmptyString))) (list_ascii_of_string s)
  | JNull | JBool _ | JNum _ => []
  end.

(** [spec.spec.components?.securitySchemes] *)
Definition securitySchemes_of spec : option json :=
  match lookup_key "components" (OpenAPISpec.spec spec) with
  | None | Some JNull => None
  | Some components => prop components "securitySchemes"
  end.

(** [schemeObj.type] when it is truthy.  The schemes are what the source
    casts them to, objects, and [type] keys a [Map<string, string[]>]:
    it is a string, and the empty string is falsy. *)
Definition scheme_type (scheme : json) : option string :=
  match prop scheme "type" with
  | Some (JStr type) => if nonempty type then Some type else None
  | _ => None
  end.

(** Body of the loop over the security schemes of one spec. *)
Definition auth_scheme spec (authSchemes : gmap string (list string))
    (entry : string * json) : gmap string (list string) :=
  let '(name, scheme) := entry in
  match scheme_type scheme with
  | Some type =>
      let authSchemes :=
        if bool_decide (is_Some (authSchemes !! type)) then authSchemes
        else <[type := []]> authSchemes in
      <[type := default [] (authSchemes !! type) ++
                [OpenAPISpec.filename spec +:+ ": " +:+ name]]> authSchemes
  | None => authSchemes
  end.

Definition auth_spec (authSchemes : gmap string (list string)) spec
    : gmap string (list string) :=
  match securitySchemes_of spec with
  | Some schemes =>
      if truthy schemes then foldl (auth_scheme spec) authSchemes (json_entries schemes)
      else authSchemes
  | None => authSchemes
  end.

(** [findInconsistencies] *)
Definition findInconsistencies specs : list Inconsistency.t :=
  let authSchemes := foldl auth_spec ∅ specs in
  if (1 <? size authSchemes)%nat then
    [ {| Inconsistency.type := "authentication";
         Inconsistency.message := "Multiple authentication schemes found across APIs";
         Inconsistency.details := authSchemes |} ]
  else [].

(** [spec.components?.schemas] *)
Definition schemas_of spec : option json :=
  OpenAPISpec.components spec ≫= lookup_key "schemas".

(** Body of the loop over [schemaNames]. *)
Definition compare_name spec (schemas : json)
    (acc : list SchemaComparison.t) (schemaName : string) : list SchemaComparison.t :=
  match prop schemas schemaName with
  | Some schema =>
      if truthy schema then
        acc ++ [ {| SchemaComparison.filename := OpenAPISpec.filename spec;
                    SchemaComparison.api := info_title (OpenAPISpec.info spec);
                    SchemaComparison.schemaName := schemaName;
                    SchemaComparison.schema := schema |} ]
      else acc
  | None => acc
  end.

Definition compare_spec (schemaNames : list string)
    (acc : list SchemaComparison.t) spec : list SchemaComparison.t :=
  match schemas_of spec with
  | Some schemas =>
      if truthy schemas then foldl (compare_name spec schemas) acc schemaNames else acc
  | None => acc
  end.

(** [compareSchemas] *)
Definition compareSchemas specs (schema1Name schema2Name : string)
    : list SchemaComparison.t :=
  let schemaNames :=
    if nonempty schema2Name then [schema1Name; schema2Name] else [schema1Name] in
  foldl (compare_spec schemaNames) [] specs.

End Engine.

(** ** The class: methods over the analyzer's fields *)

Module Analyzer.

Record state : Type := State {
  specs : list OpenAPISpec.t;
  loadedSources : list LoadSource.t;
  discoveryUrl : option string;
  specUrls : list string;
  specsFolder : option string
}.

(** A method takes the object and returns its result with the object as
    the call leaves it. *)
Definition Method (A : Type) : Type := state -> A * state.

Definition ret {A} (a : A) : Method A := fun this => (a, this).

Definition bind {A B} (m : Method A) (k : A -> Method B) : Method B :=
  fun this => let '(a, this') := m this in k a this'.

Definition read {A} (field : state -> A) : Method A := fun this => (field this, this).

Definition assign_specs (v : list OpenAPISpec.t) : Method unit :=
  fun this =>
    (tt, {| specs := v; loadedSources := loadedSources this;
            discoveryUrl := discoveryUrl this; specUrls := specUrls this;
            specsFolder := specsFolder this |}).

Definition assign_loadedSources (v : list LoadSource.t) : Method unit :=
  fun this =>
    (tt, {| specs := specs this; loadedSources := v;
            discoveryUrl := discoveryUrl this; specUrls := specUrls this;
            specsFolder := specsFolder this |}).

#[export] Instance Method_ret : MRet Method := @ret.
#[export] Instance Method_bind : MBind Method := fun A B k m => bind m k.

(** [loadSpecs]: clears both fields, then pushes what the loaders obtained
    from the configured sources ([fetched], [sources]: the outcome of the
    file and network reads, which are outside the engine). *)
Definition loadSpecs (fetched : list OpenAPISpec.t) (sources : list LoadSource.t)
    : Method unit :=
  assign_specs [] ;;
  assign_loadedSources [] ;;
  loaded ← read specs;
  assign_specs (loaded ++ fetched) ;;
  recorded ← read loadedSources;
  assign_loadedSources (recorded ++ sources).

Definition listAllSpecs : Method (list ApiSummary.t) :=
  specs ← read specs; mret (listAllSpecs specs).

Definition getLoadedSources : Method (list LoadSource.t) :=
  read loadedSources.

Definition getSpecByFilename (filename : string) : Method (option Record_any) :=
  specs ← read specs; mret (getSpecByFilename specs filename).

Definition searchEndpoints (query : string) : Method (list SearchResult.t) :=
  specs ← read specs; mret (searchEndpoints specs query).

Definition getApiStats : Method ApiStats.t :=
  specs ← read specs; mret (getApiStats specs).

Definition findInconsistencies : Method (list Inconsistency.t) :=
  specs ← read specs; mret (findInconsistencies specs).

Definition compareSchemas (schema1Name schema2Name : string)
    : Method (list SchemaComparison.t) :=
  specs ← read specs; mret (compareSchemas specs schema1Name schema2Name).

End Analyzer.

(** ** The tool-call handler *)

Module Server.
Import Analyzer.

(** What a handler passes to [JSON.stringify]. *)
Inductive value : Type :=
| ApiList (apiList : list ApiSummary.t)
| Document (spec : Record_any)
| SearchResults (searchResults : list SearchResult.t)
| Stats (stats : ApiStats.t)
| Inconsistencies (inconsistencies : list Inconsistency.t)
| Comparison (comparison : list SchemaComparison.t)
| Sources (sources : list LoadSource.t).

(** The [text] of the single content item of a response. *)
Inductive text : Type :=
| Plain (s : string)
| JSON_stringify (v : value).

(** A [case] of the switch returns a response or throws. *)
Inductive outcome : Type :=
| Return (t : text)
| Throw (error : string).

(** The arguments object; the handler reads each argument [as string]. *)
Abbreviation arguments := (gmap string string).

(** [!x] for an optional string argument. *)
Definition missing (x : option string) : bool :=
  match x with
  | Some s => negb (nonempty s)
  | None => true
  end.

(** The [switch (name)] inside the [try]. *)
Definition dispatch (fetched : list OpenAPISpec.t) (sources : list LoadSource.t)
    (name : string) (args : arguments) : Method outcome :=
  if String.eqb name "load_specs" then
    loadSpecs fetched sources ;;
    specs ← read specs;
    mret (Return (Plain ("Successfully loaded " +:+ pretty (length specs) +:+
                         " OpenAPI specifications")))
  else if String.eqb name "list_apis" then
    apiList ← listAllSpecs;
    mret (Return (JSON_stringify (ApiList apiList)))
  else if String.eqb name "get_api_spec" then
    let filename := args !! "filename" in
    if missing filename then mret (Return (Plain "Error: filename parameter is required"))
    else
      let filename := default "" filename in
      spec ← getSpecByFilename filename;
      match spec with
      | None => mret (Return (Plain ("API spec not found: " +:+ filename)))
      | Some spec => mret (Return (JSON_stringify (Document spec)))
      end
  else if String.eqb name "search_endpoints" then
    let query := args !! "query" in
    if missing query then mret (Return (Plain "Error: query parameter is required"))
    else
      searchResults ← searchEndpoints (default "" query);
      mret (Return (JSON_stringify (SearchResults searchResults)))
  else if String.eqb name "get_api_stats" then
    stats ← getApiStats;
    mret (Return (JSON_stringify (Stats stats)))
  else if String.eqb name "find_inconsistencies" then
    inconsistencies ← findInconsistencies;
    mret (Return (JSON_stringify (Inconsistencies inconsistencies)))
  else if String.eqb name "compare_schemas" then
    let schema1 := args !! "schema1" in
    let schema2 := if missing (args !! "schema2") then schema1 else args !! "schema2" in
    if missing schema1 then mret (Return (Plain "Error: schema1 parameter is required"))
    else
      comparison ← compareSchemas (default "" schema1) (default "" schema2);
      mret (Return (JSON_stringify (Comparison comparison)))
  else if String.eqb name "get_load_sources" then
    sources ← getLoadedSources;
    mret (Return (JSON_stringify (Sources sources)))
  else mret (Throw ("Error: Unknown tool: " +:+ name)).

(** The handler of [CallToolRequestSchema]: [args] is [None] when the
    request carries no arguments object. *)
Definition CallTool (fetched : list OpenAPISpec.t) (sources : list LoadSource.t)
    (name : string) (args : option arguments) : Method text :=
  match args with
  | None => mret (Plain "Error: No arguments provided")
  | Some args =>
      result ← dispatch fetched sources name args;
      match result with
      | Return t => mret t
      | Throw error => mret (Plain ("Error: " +:+ error))
      end
  end.

End Server.

(** * Properties *)

(** ** Case variants of a string *)

(** The letter in the other case; other characters are left alone. *)
Definition swap_case (c : ascii) : ascii :=
  if is_upper c then lower_char c else if is_lower c then upper_char c else c.

(** [t] is [s] with the case of some of its letters changed. *)
Inductive case_variant : string -> string -> Prop :=
| cv_empty : case_variant EmptyString EmptyString
| cv_keep c s t : case_variant s t -> case_variant (String c s) (String c t)
| cv_swap c s t : case_variant s t -> case_variant (String c s) (String (swap_case c) t).

Lemma lower_char_swap_case c : lower_char (swap_case c) = lower_char c.
Proof. destruct c as [[] [] [] [] [] [] [] []]; reflexivity. Qed.

Lemma upper_char_swap_case c : upper_char (swap_case c) = upper_char c.
Proof. destruct c as [[] [] [] [] [] [] [] []]; reflexivity. Qed.

Lemma swap_case_involutive c : swap_case (swap_case c) = c.
Proof. destruct c as [[] [] [] [] [] [] [] []]; reflexivity. Qed.

Lemma lower_char_of_upper c :
  is_upper c = true ->
  is_upper (lower_char c) = false /\ swap_case (lower_char c) = c /\ swap_case c = lower_char c.
Proof. destruct c as [[] [] [] [] [] [] [] []]; vm_compute; intros; (discriminate || tauto). Qed.

Lemma lower_char_not_upper c : is_upper c = false -> lower_char c = c.
Proof. unfold lower_char; intros ->; reflexivity. Qed.

Lemma lower_char_eq_inv a b :
  lower_char a = lower_char b -> b = a \/ b = swap_case a.
Proof.
  destruct (is_upper a) eqn:Ha, (is_upper b) eqn:Hb.
  - destruct (lower_char_of_upper a Ha) as (_ & Ea & _).
    destruct (lower_char_of_upper b Hb) as (_ & Eb & _).
    intros E; left; rewrite <- Ea, <- Eb, E; reflexivity.
  - rewrite (lower_char_not_upper b Hb); intros <-; right.
    symmetry; apply lower_char_of_upper, Ha.
  - rewrite (lower_char_not_upper a Ha); intros ->; right.
    symmetry; apply lower_char_of_upper, Hb.
  - rewrite (lower_char_not_upper a Ha), (lower_char_not_upper b Hb); auto.
Qed.

Lemma case_variant_refl s : case_variant s s.
Proof. induction s; constructor; assumption. Qed.

Lemma case_variant_sym s t : case_variant s t -> case_variant t s.
Proof.
  induction 1 as [|c s t _ IH|c s t _ IH]; try (constructor; assumption).
  rewrite <- (swap_case_involutive c) at 2; constructor; assumption.
Qed.

Lemma case_variant_toLowerCase s t :
  case_variant s t -> toLowerCase s = toLowerCase t.
Proof.
  induction 1 as [|c s t _ IH|c s t _ IH]; simpl;
    rewrite ?lower_char_swap_case, ?IH; reflexivity.
Qed.

Lemma toLowerCase_case_variant s t :
  toLowerCase s = toLowerCase t -> case_variant s t.
Proof.
  revert t; induction s as [|a s IH]; intros [|b t]; simpl; try discriminate.
  - constructor.
  - intros [= Hc Hs].
    destruct (lower_char_eq_inv a b Hc) as [-> | ->]; constructor; auto.
Qed.

Lemma case_variant_toUpperCase s t :
  case_variant s t -> toUpperCase s = toUpperCase t.
Proof.
  induction 1 as [|c s t _ IH|c s t _ IH]; simpl;
    rewrite ?upper_char_swap_case, ?IH; reflexivity.
Qed.

Lemma case_variant_lower s : case_variant s (toLowerCase s).
Proof.
  apply toLowerCase_case_variant.
  induction s as [|c s IH]; simpl; [reflexivity|].
  rewrite <- IH; f_equal.
  destruct c as [[] [] [] [] [] [] [] []]; reflexivity.
Qed.

(** ** Substrings *)

Lemma prefix_app needle hay :
  String.prefix needle hay = true <-> exists post, hay = needle +:+ post.
Proof.
  revert hay; induction needle as [|c needle IH]; intros hay; simpl.
  - split; [intros _; exists hay; reflexivity | intros _; destruct hay; reflexivity].
  - destruct hay as [|d hay].
    + split; [discriminate | intros [post [=]]].
    + simpl; destruct (ascii_dec c d) as [->|Hne].
      * rewrite IH; split; intros [post E]; exists post; [rewrite E | injection E]; auto.
      * split; [discriminate | intros [post [= E _]]; congruence].
Qed.

Lemma includes_cons c hay needle :
  includes (String c hay) needle = String.prefix needle (String c hay) || includes hay needle.
Proof. reflexivity. Qed.

Lemma includes_spec hay needle :
  includes hay needle = true <-> exists pre post, hay = pre +:+ needle +:+ post.
Proof.
  induction hay as [|c hay IH].
  - change (includes EmptyString needle) with (String.prefix needle EmptyString || false).
    rewrite orb_false_r, prefix_app; split.
    + intros [post E]; exists EmptyString, post; exact E.
    + intros ([|d pre] & post & E); [exists post; exact E | discriminate].
  - rewrite includes_cons, orb_true_iff, prefix_app, IH; split.
    + intros [[post E] | (pre & post & E)].
      * exists EmptyString, post; exact E.
      * exists (String c pre), post; simpl; rewrite E; reflexivity.
    + intros ([|d pre] & post & E).
      * left; exists post; exact E.
      * right; injection E as _ E; exists pre, post; exact E.
Qed.

(** ** Loops that push to a result array *)

Lemma foldl_push {A B} (f : list B -> A -> list B) (g : A -> list B) :
  (forall acc x, f acc x = acc ++ g x) ->
  forall l acc, foldl f acc l = acc ++ (l ≫= g).
Proof.
  intros Hf l; induction l as [|x l IH]; intros acc.
  - simpl; rewrite app_nil_r; reflexivity.
  - rewrite bind_cons, app_assoc, <- Hf; apply IH.
Qed.


(** ** searchEndpoints *)

(** [spec.paths] as a sequence of entries, empty when the field is absent. *)
Definition paths_of (spec : OpenAPISpec.t) : list (string * PathItem) :=
  default [] (OpenAPISpec.paths spec).

(** What one key of a path item adds to the results. *)
Definition search_hit (lowerQuery : string) (spec : OpenAPISpec.t) (path : string)
    (entry : string * json) : list SearchResult.t :=
  search_operation lowerQuery spec path [] entry.

Lemma search_operation_push lowerQuery spec path results entry :
  search_operation lowerQuery spec path results entry =
  results ++ search_hit lowerQuery spec path entry.
Proof.
  unfold search_hit, search_operation; destruct entry as [method operation].
  destruct (negb (is_object operation)); [rewrite app_nil_r; reflexivity|].
  destruct (includes _ _); [reflexivity | rewrite app_nil_r; reflexivity].
Qed.

Lemma search_path_push lowerQuery spec results entry :
  search_path lowerQuery spec results entry =
  results ++ (entry.2 ≫= search_hit lowerQuery spec entry.1).
Proof.
  destruct entry as [path pathItem]; unfold search_path, Object_entries.
  apply foldl_push, search_operation_push.
Qed.

Lemma search_spec_push lowerQuery results spec :
  search_spec lowerQuery results spec =
  results ++ (paths_of spec ≫= fun entry => entry.2 ≫= search_hit lowerQuery spec entry.1).
Proof.
  unfold search_spec, paths_of, Object_entries.
  destruct (OpenAPISpec.paths spec) as [paths|]; simpl.
  - apply foldl_push, search_path_push.
  - rewrite app_nil_r; reflexivity.
Qed.

(** The results are the hits of every key of every path of every spec, in
    iteration order. *)
Lemma searchEndpoints_hits specs query :
  searchEndpoints specs query =
  specs ≫= fun spec =>
    paths_of spec ≫= fun entry =>
      entry.2 ≫= search_hit (toLowerCase query) spec entry.1.
Proof.
  unfold searchEndpoints.
  rewrite (foldl_push _ _ (search_spec_push (toLowerCase query))); reflexivity.
Qed.









(** A path item with one operation, shared parameters and an extension
    field. *)
Definition users_spec : OpenAPISpec.t :=
  {| OpenAPISpec.filename := "users.json";
     OpenAPISpec.spec := [];
     OpenAPISpec.info := Some (OpenAPIInfo.Build (Some "Users") (Some "1.0.0") None);
     OpenAPISpec.paths :=
       Some [ ("/users/{id}",
               [ ("$ref", JStr "#/components/pathItems/user");
                 ("get", JObj [("summary", JStr "Get one user"); ("operationId", JStr "getUser")]);
                 ("parameters", JArr [JObj [("name", JStr "id"); ("in", JStr "path")]]);
                 ("x-rate-limit", JObj [("limit", JNum 10)]) ]) ];
     OpenAPISpec.components := None |}.

(** A spec whose path items hold operations, a reference and an extension
    field, but no array. *)
Definition orders_spec : OpenAPISpec.t :=
  {| OpenAPISpec.filename := "orders.yaml";
     OpenAPISpec.spec := [];
     OpenAPISpec.info := Some (OpenAPIInfo.Build (Some "Orders") None None);
     OpenAPISpec.paths :=
       Some [ ("/orders",
               [ ("get", JObj [("summary", JStr "List Orders")]);
                 ("post", JObj [("operationId", JStr "createOrder"); ("deprecated", JBool true)]);
                 ("$ref", JStr "#/components/pathItems/orders");
                 ("x-owner", JObj [("description", JStr "order team")]) ]);
              ("/orders/{orderId}", [ ("Delete", JObj []) ]) ];
     OpenAPISpec.components := None |}.




Example searchEndpoints_orders :
  map (fun r => (SearchResult.path r, SearchResult.method r))
      (searchEndpoints [orders_spec] "ORDER") =
  [("/orders", "GET"); ("/orders", "POST"); ("/orders", "X-OWNER");
   ("/orders/{orderId}", "DELETE")].
Proof. vm_compute; reflexivity. Qed.

(** C6: two queries that differ only in the case of their letters give the
    same sequence of results. *)
Theorem searchEndpoints_case_insensitive specs query1 query2 :
  case_variant query1 query2 ->
  searchEndpoints specs query1 = searchEndpoints specs query2.
Proof.
  intros Hcv; unfold searchEndpoints.
  rewrite (case_variant_toLowerCase _ _ Hcv); reflexivity.
Qed.

Lemma searchEndpoints_case_insensitive_witness :
  case_variant "USERS" "users" /\
  searchEndpoints [users_spec; orders_spec] "USERS" =
  searchEndpoints [users_spec; orders_spec] "users".
Proof.
  assert (H : case_variant "USERS" "users")
    by (apply toLowerCase_case_variant; reflexivity).
  split; [exact H|].
  apply (searchEndpoints_case_insensitive [users_spec; orders_spec] "USERS" "users" H).
Defined.

(** ** getApiStats *)

(** The key of a path item is one of the seven verbs of [httpMethods] once
    lower-cased. *)
Definition recognized (method : string) : Prop := toLowerCase method ∈ httpMethods.

#[local] Instance recognized_dec method : Decision (recognized method).
Proof. unfold recognized; apply _. Defined.

(** The keys of every path item of a spec, path after path. *)
Definition method_keys (spec : OpenAPISpec.t) : list string :=
  paths_of spec ≫= fun entry => Object_keys entry.2.

(** The keys of [spec.paths]. *)
Definition path_keys (spec : OpenAPISpec.t) : list string := Object_keys (paths_of spec).

(** A dictionary after one increment per element of [l], under the key
    [key x]. *)
Definition tally {A} (key : A -> string) (counts : gmap string nat) (l : list A)
    : gmap string nat :=
  foldl (fun counts x => bump (key x) counts) counts l.

Definition collect_methods (set : list string) (l : list string) : list string :=
  foldl (fun set method => Set_add (toUpperCase method) set) set l.

Lemma tally_app {A} (key : A -> string) counts l1 l2 :
  tally key counts (l1 ++ l2) = tally key (tally key counts l1) l2.
Proof. apply foldl_app. Qed.

Lemma foldl_stats_method keys s :
  foldl stats_method s keys =
  {| loop_stats :=
       with_methodCounts (fun counts => tally toUpperCase counts (filter recognized keys))
                         (loop_stats s);
     loop_endpointCount := loop_endpointCount s + length (filter recognized keys);
     loop_apiMethods := collect_methods (loop_apiMethods s) (filter recognized keys) |}.
Proof.
  revert s; induction keys as [|method keys IH]; intros [[n e mc cp vs ap] count set].
  - simpl; rewrite Nat.add_0_r; reflexivity.
  - simpl foldl; rewrite IH, filter_cons; unfold stats_method, recognized at 1.
    destruct (decide (recognized method)) as [Hr|Hr].
    + rewrite (bool_decide_eq_true_2 _ Hr); simpl.
      rewrite Nat.add_succ_r; reflexivity.
    + rewrite (bool_decide_eq_false_2 _ Hr); reflexivity.
Qed.

Lemma foldl_stats_path (paths : list (string * PathItem)) s :
  foldl stats_path s paths =
  {| loop_stats :=
       with_commonPaths (fun counts => tally pathPattern counts (Object_keys paths))
         (with_methodCounts
            (fun counts =>
               tally toUpperCase counts
                     (filter recognized (paths ≫= fun entry => Object_keys entry.2)))
            (loop_stats s));
     loop_endpointCount :=
       loop_endpointCount s
       + length (filter recognized (paths ≫= fun entry => Object_keys entry.2));
     loop_apiMethods :=
       collect_methods (loop_apiMethods s)
                       (filter recognized (paths ≫= fun entry => Object_keys entry.2)) |}.
Proof.
  revert s; induction paths as [|[path pathItem] paths IH];
    intros [[n e mc cp vs ap] count set].
  - simpl; rewrite Nat.add_0_r; reflexivity.
  - rewrite bind_cons, filter_app, length_app.
    simpl foldl; rewrite IH; unfold stats_path; rewrite foldl_stats_method.
    unfold with_commonPaths, with_methodCounts, collect_methods; simpl.
    rewrite tally_app, foldl_app, Nat.add_assoc; reflexivity.
Qed.

(** The entry of [stats.apis] for one spec. *)
Definition api_entry (spec : OpenAPISpec.t) : ApiEntry.t :=
  {| ApiEntry.filename := OpenAPISpec.filename spec;
     ApiEntry.title := info_title (OpenAPISpec.info spec);
     ApiEntry.version := info_version (OpenAPISpec.info spec);
     ApiEntry.endpointCount := length (filter recognized (method_keys spec));
     ApiEntry.methods :=
       sort_strings (collect_methods [] (filter recognized (method_keys spec))) |}.

Definition version_key (spec : OpenAPISpec.t) : string :=
  str_or (info_version (OpenAPISpec.info spec)) "unknown".

Lemma stats_spec_fields stats spec :
  stats_spec stats spec =
  {| ApiStats.totalApis := ApiStats.totalApis stats;
     ApiStats.totalEndpoints :=
       ApiStats.totalEndpoints stats + length (filter recognized (method_keys spec));
     ApiStats.methodCounts :=
       tally toUpperCase (ApiStats.methodCounts stats) (filter recognized (method_keys spec));
     ApiStats.commonPaths := tally pathPattern (ApiStats.commonPaths stats) (path_keys spec);
     ApiStats.versions := bump (version_key spec) (ApiStats.versions stats);
     ApiStats.apis := ApiStats.apis stats ++ [api_entry spec] |}.
Proof.
  destruct stats as [n e mc cp vs ap].
  unfold stats_spec, api_entry, method_keys, path_keys, paths_of, version_key, Object_entries.
  destruct (OpenAPISpec.paths spec) as [paths|]; simpl; [|reflexivity].
  rewrite foldl_stats_path; reflexivity.
Qed.

Lemma foldl_stats_spec specs stats :
  foldl stats_spec stats specs =
  {| ApiStats.totalApis := ApiStats.totalApis stats;
     ApiStats.totalEndpoints :=
       ApiStats.totalEndpoints stats + length (filter recognized (specs ≫= method_keys));
     ApiStats.methodCounts :=
       tally toUpperCase (ApiStats.methodCounts stats)
             (filter recognized (specs ≫= method_keys));
     ApiStats.commonPaths := tally pathPattern (ApiStats.commonPaths stats) (specs ≫= path_keys);
     ApiStats.versions := tally version_key (ApiStats.versions stats) specs;
     ApiStats.apis := ApiStats.apis stats ++ map api_entry specs |}.
Proof.
  revert stats; induction specs as [|spec specs IH]; intros stats.
  - destruct stats; simpl; rewrite Nat.add_0_r, app_nil_r; reflexivity.
  - rewrite !bind_cons, filter_app, length_app, !tally_app.
    simpl foldl; rewrite IH, stats_spec_fields; cbn [ApiStats.totalApis
      ApiStats.totalEndpoints ApiStats.methodCounts ApiStats.commonPaths
      ApiStats.versions ApiStats.apis map].
    rewrite Nat.add_assoc, <- app_assoc; reflexivity.
Qed.

(** [getApiStats] field by field. *)
Lemma getApiStats_fields specs :
  getApiStats specs =
  {| ApiStats.totalApis := length specs;
     ApiStats.totalEndpoints := length (filter recognized (specs ≫= method_keys));
     ApiStats.methodCounts := tally toUpperCase ∅ (filter recognized (specs ≫= method_keys));
     ApiStats.commonPaths := tally pathPattern ∅ (specs ≫= path_keys);
     ApiStats.versions := tally version_key ∅ specs;
     ApiStats.apis := map api_entry specs |}.
Proof. unfold getApiStats; rewrite foldl_stats_spec; reflexivity. Qed.

(** *** Dictionaries of counts *)

(** [sum(counts.values())] *)
Definition sum_values (counts : gmap string nat) : nat :=
  map_fold (fun _ n total => n + total) 0 counts.

Lemma sum_values_bump k counts : sum_values (bump k counts) = S (sum_values counts).
Proof.
  unfold bump, sum_values.
  assert (Hcomm : forall (m : gmap string nat) (j1 j2 : string) (z1 z2 y : nat),
             j1 ≠ j2 -> m !! j1 = Some z1 -> m !! j2 = Some z2 ->
             z1 + (z2 + y) = z2 + (z1 + y)) by (intros; lia).
  destruct (counts !! k) as [n|] eqn:Hk; simpl.
  - rewrite <- insert_delete_eq.
    rewrite map_fold_insert_L; [|intros; lia|apply lookup_delete_eq].
    rewrite (map_fold_delete_L _ _ k n counts); [lia|intros; lia|exact Hk].
  - rewrite map_fold_insert_L; [lia|intros; lia|exact Hk].
Qed.

Lemma sum_values_tally {A} (key : A -> string) counts l :
  sum_values (tally key counts l) = sum_values counts + length l.
Proof.
  revert counts; induction l as [|x l IH]; intros counts; simpl.
  - lia.
  - unfold tally in *; simpl; rewrite IH, sum_values_bump; lia.
Qed.

(** [counts[k] || 0] *)
Definition count_at (counts : gmap string nat) (k : string) : nat := default 0 (counts !! k).

Lemma count_at_bump counts k k' :
  count_at (bump k counts) k' = count_at counts k' + (if decide (k = k') then 1 else 0).
Proof.
  unfold count_at, bump; destruct (decide (k = k')) as [->|Hne].
  - rewrite lookup_insert_eq; simpl; lia.
  - rewrite lookup_insert_ne by exact Hne; lia.
Qed.

Lemma count_at_tally {A} (key : A -> string) counts l k :
  count_at (tally key counts l) k = count_at counts k + length (filter (fun x => key x = k) l).
Proof.
  revert counts; induction l as [|x l IH]; intros counts.
  - simpl; lia.
  - unfold tally in *; simpl foldl; rewrite IH, count_at_bump, filter_cons.
    destruct (decide (key x = k)); simpl; lia.
Qed.

(** A key is in the dictionary exactly when it was counted at least once. *)
Lemma lookup_tally {A} (key : A -> string) l k :
  tally key ∅ l !! k =
  if decide (k ∈ map key l) then Some (length (filter (fun x => key x = k) l)) else None.
Proof.
  assert (Hgen : forall counts : gmap string nat,
    (forall j n, counts !! j = Some n -> 0 < n) ->
    (forall j n, tally key counts l !! j = Some n -> 0 < n)
    /\ (is_Some (tally key counts l !! k) <-> is_Some (counts !! k) \/ k ∈ map key l)).
  { induction l as [|x l IH]; intros counts Hpos.
    - split; [exact Hpos|]. simpl; rewrite elem_of_nil; tauto.
    - assert (Hpos' : forall j n, bump (key x) counts !! j = Some n -> 0 < n).
      { intros j n; unfold bump; destruct (decide (key x = j)) as [->|Hne].
        - rewrite lookup_insert_eq; intros [= <-]; lia.
        - rewrite lookup_insert_ne by exact Hne; apply Hpos. }
      destruct (IH _ Hpos') as [IH1 IH2]; split; [exact IH1|].
      change (tally key counts (x :: l)) with (tally key (bump (key x) counts) l).
      rewrite IH2; simpl; rewrite elem_of_cons; unfold bump.
      destruct (decide (key x = k)) as [->|Hne].
      + rewrite lookup_insert_eq; split; intros _; [right; left; reflexivity | left; eauto].
      + rewrite lookup_insert_ne by exact Hne; intuition congruence. }
  destruct (Hgen ∅) as [_ Hdom]; [intros j n; rewrite lookup_empty; discriminate|].
  pose proof (count_at_tally key ∅ l k) as Hcount.
  unfold count_at in Hcount; rewrite lookup_empty in Hcount; simpl in Hcount.
  destruct (decide (k ∈ map key l)) as [Hin|Hin].
  - destruct (proj2 Hdom (or_intror Hin)) as [n Hn].
    rewrite Hn in Hcount |- *; simpl in Hcount; congruence.
  - destruct (tally key ∅ l !! k) as [n|] eqn:Hn; [|reflexivity].
    destruct (proj1 Hdom (ex_intro _ n eq_refl)) as [[? H]|H];
      [rewrite lookup_empty in H; discriminate | contradiction].
Qed.

Lemma sum_values_empty : sum_values ∅ = 0.
Proof. apply map_fold_empty. Qed.

(** C4: the values of [methodCounts] add up to [totalEndpoints]. *)
Theorem methodCounts_sum_totalEndpoints specs :
  sum_values (ApiStats.methodCounts (getApiStats specs)) =
  ApiStats.totalEndpoints (getApiStats specs).
Proof.
  rewrite getApiStats_fields; simpl.
  rewrite sum_values_tally, sum_values_empty; reflexivity.
Qed.


(** *** The two endpoint counts *)

Definition recognizedVerbs : list string :=
  ["GET"; "POST"; "PUT"; "DELETE"; "PATCH"; "OPTIONS"; "HEAD"].

(** The method name is one of the recognized verbs up to the case of its
    letters. *)
Definition matches_verb (method : string) : Prop :=
  exists verb, verb ∈ recognizedVerbs /\ case_variant verb method.

Lemma recognized_matches_verb method : recognized method <-> matches_verb method.
Proof.
  unfold recognized, matches_verb, httpMethods, recognizedVerbs; split.
  - intros H; exists (toUpperCase (toLowerCase method)); split.
    + repeat (apply elem_of_cons in H as [-> | H]; [vm_compute; set_solver|]).
      apply elem_of_nil in H; contradiction.
    + apply toLowerCase_case_variant.
      repeat (apply elem_of_cons in H as [H | H]; [rewrite H; reflexivity|]).
      apply elem_of_nil in H; contradiction.
  - intros (verb & Hverb & Hcv).
    rewrite <- (case_variant_toLowerCase _ _ Hcv).
    repeat (apply elem_of_cons in Hverb as [-> | Hverb]; [vm_compute; set_solver|]).
    apply elem_of_nil in Hverb; contradiction.
Qed.

#[local] Instance matches_verb_dec method : Decision (matches_verb method).
Proof.
  destruct (decide (recognized method)) as [H|H].
  - left; apply recognized_matches_verb, H.
  - right; intros H'; apply H, recognized_matches_verb, H'.
Defined.

(** The (path, method) pairs of a spec: every key of every path item. *)
Definition operations (spec : OpenAPISpec.t) : list (string * string) :=
  paths_of spec ≫= fun entry => map (fun method => (entry.1, method)) (Object_keys entry.2).

(** The distinct path templates of a spec; none when [paths] is absent. *)
Definition path_templates (spec : OpenAPISpec.t) : gset string :=
  match OpenAPISpec.paths spec with
  | Some paths => list_to_set (Object_keys paths)
  | None => ∅
  end.

Lemma count_operations_of_path (path : string) (keys : list string) :
  length (filter (fun op : string * string => matches_verb op.2)
                 (map (fun method => (path, method)) keys)) =
  length (filter recognized keys).
Proof.
  induction keys as [|method keys IH]; [reflexivity|].
  simpl map; rewrite !filter_cons; simpl.
  destruct (decide (matches_verb method)) as [Hm|Hm], (decide (recognized method)) as [Hr|Hr];
    simpl; rewrite ?IH; try reflexivity.
  - exfalso; apply Hr, recognized_matches_verb, Hm.
  - exfalso; apply Hm, recognized_matches_verb, Hr.
Qed.

Lemma count_operations spec :
  length (filter (fun op : string * string => matches_verb op.2) (operations spec)) =
  length (filter recognized (method_keys spec)).
Proof.
  unfold operations, method_keys.
  induction (paths_of spec) as [|[path pathItem] paths IH]; [reflexivity|].
  rewrite !bind_cons, !filter_app, !length_app, IH, count_operations_of_path; reflexivity.
Qed.

(** C1: in [listAllSpecs] the endpoint count of a spec is the number of
    distinct path templates of its [paths] (0 when absent); in
    [getApiStats] the endpoint count of the same spec is the number of
    (path, method) pairs whose method is a recognized verb in any case. *)
Theorem endpointCount_two_definitions specs :
  Forall (fun spec => NoDup (path_keys spec)) specs ->
  map ApiSummary.endpointCount (listAllSpecs specs) =
    map (fun spec => size (path_templates spec)) specs
  /\ map ApiEntry.endpointCount (ApiStats.apis (getApiStats specs)) =
    map (fun spec =>
           length (filter (fun op : string * string => matches_verb op.2) (operations spec)))
        specs.
Proof.
  intros Hkeys; split.
  - unfold listAllSpecs; rewrite map_map; simpl.
    induction Hkeys as [|spec specs Hspec _ IH]; [reflexivity|].
    rewrite !map_cons, IH; f_equal.
    unfold path_templates, path_keys, paths_of in *.
    destruct (OpenAPISpec.paths spec) as [paths|].
    + rewrite size_list_to_set by exact Hspec; reflexivity.
    + rewrite size_empty; reflexivity.
  - rewrite getApiStats_fields; simpl; rewrite map_map; simpl.
    clear Hkeys; induction specs as [|spec specs IH]; [reflexivity|].
    simpl; rewrite IH, count_operations; reflexivity.
Qed.

Lemma endpointCount_two_definitions_witness :
  Forall (fun spec => NoDup (path_keys spec)) [users_spec; orders_spec] /\
  (map ApiSummary.endpointCount (listAllSpecs [users_spec; orders_spec]) =
     map (fun spec => size (path_templates spec)) [users_spec; orders_spec]
   /\ map ApiEntry.endpointCount (ApiStats.apis (getApiStats [users_spec; orders_spec])) =
     map (fun spec =>
            length (filter (fun op : string * string => matches_verb op.2) (operations spec)))
         [users_spec; orders_spec]).
Proof.
  assert (H : Forall (fun spec => NoDup (path_keys spec)) [users_spec; orders_spec]).
  { apply (bool_decide_unpack _); vm_compute; exact I. }
  split; [exact H|].
  apply (endpointCount_two_definitions [users_spec; orders_spec] H).
Defined.

Example endpointCount_orders :
  map ApiSummary.endpointCount (listAllSpecs [orders_spec]) = [2] /\
  map ApiEntry.endpointCount (ApiStats.apis (getApiStats [orders_spec])) = [3].
Proof. split; vm_compute; reflexivity. Qed.

(** *** Path patterns *)

(** The character occurs in the string. *)
Fixpoint mentions (c : ascii) (s : string) : bool :=
  match s with
  | EmptyString => false
  | String d rest => Ascii.eqb d c || mentions c rest
  end.




Lemma pathPattern_literal path : mentions "{" path = false -> pathPattern path = path.
Proof.
  intros H; unfold pathPattern.
  induction path as [|c path IH]; simpl in *; [reflexivity|].
  apply orb_false_iff in H as [Hc Hpath].
  rewrite Hc, (IH Hpath); reflexivity.
Qed.



Lemma append_cons c s t : String c s +:+ t = String c (s +:+ t).
Proof. reflexivity. Qed.









Lemma append_assoc a b c : (a +:+ b) +:+ c = a +:+ (b +:+ c).
Proof. induction a as [|x a IH]; [reflexivity | rewrite !append_cons, IH; reflexivity]. Qed.





Example pathPattern_examples :
  pathPattern "/users/{userId}" = "/users/{id}" /\
  pathPattern "/posts/{postId}/comments" = "/posts/{id}/comments" /\
  pathPattern "/a/{}/{b" = "/a/{}/{b".
Proof. repeat split. Qed.

(** ** findInconsistencies *)







Lemma foldl_ext_eq {A B} (f g : A -> B -> A) (l : list B) (a : A) :
  (forall a x, f a x = g a x) -> foldl f a l = foldl g a l.
Proof.
  intros H; revert a; induction l as [|x l IH]; intros a; [reflexivity|].
  simpl; rewrite H; apply IH.
Qed.







(** Raw documents with one security scheme each. *)
Definition secured (id scheme type : string) : OpenAPISpec.t :=
  let components := JObj [("securitySchemes", JObj [(scheme, JObj [("type", JStr type)])])] in
  {| OpenAPISpec.filename := id;
     OpenAPISpec.spec := [("openapi", JStr "3.0.0"); ("components", components)];
     OpenAPISpec.info := None;
     OpenAPISpec.paths := None;
     OpenAPISpec.components := Some [("securitySchemes", JObj [(scheme, JObj [("type", JStr type)])])] |}.


Definition mixed_specs : list OpenAPISpec.t :=
  [secured "api1.json" "bearerAuth" "http"; secured "api2.json" "apiKey" "apiKey";
   secured "api3.json" "basic" "http"].


Example findInconsistencies_mixed :
  map Inconsistency.details (findInconsistencies mixed_specs) =
  [ {[ "http" := ["api1.json: bearerAuth"; "api3.json: basic"];
       "apiKey" := ["api2.json: apiKey"] ]} ].
Proof. vm_compute; reflexivity. Qed.

(** ** compareSchemas *)

(** The schema a spec defines under the name, if any: the truthy value of
    [components.schemas[name]]. *)
Definition defined_schema (spec : OpenAPISpec.t) (name : string) : option json :=
  match schemas_of spec with
  | Some schemas =>
      if truthy schemas then
        match prop schemas name with
        | Some schema => if truthy schema then Some schema else None
        | None => None
        end
      else None
  | None => None
  end.

(** The records one spec contributes for one name: one if it defines the
    schema, none otherwise. *)
Definition schema_records (spec : OpenAPISpec.t) (name : string) : list SchemaComparison.t :=
  match defined_schema spec name with
  | Some schema =>
      [ {| SchemaComparison.filename := OpenAPISpec.filename spec;
           SchemaComparison.api := info_title (OpenAPISpec.info spec);
           SchemaComparison.schemaName := name;
           SchemaComparison.schema := schema |} ]
  | None => []
  end.

Lemma compare_spec_push names acc spec :
  compare_spec names acc spec = acc ++ (names ≫= schema_records spec).
Proof.
  unfold compare_spec, schema_records, defined_schema.
  destruct (schemas_of spec) as [schemas|].
  - destruct (truthy schemas).
    + apply foldl_push; intros acc' name; unfold compare_name.
      destruct (prop schemas name) as [schema|]; [|rewrite app_nil_r; reflexivity].
      destruct (truthy schema); [reflexivity | rewrite app_nil_r; reflexivity].
    + induction names; [rewrite app_nil_r; reflexivity | assumption].
  - induction names; [rewrite app_nil_r; reflexivity | assumption].
Qed.

(** The single-name form of the method: one record for every spec that
    defines the schema, in registry order, and nothing else. *)
Lemma compareSchemas_single specs name :
  compareSchemas specs name EmptyString = specs ≫= fun spec => schema_records spec name.
Proof.
  unfold compareSchemas; simpl nonempty; cbv iota.
  rewrite (foldl_push _ _ (compare_spec_push [name])); simpl.
  induction specs as [|spec specs IH]; [reflexivity|].
  rewrite !bind_cons, IH, app_nil_r; reflexivity.
Qed.

(** The two-name form: per spec, the record for the first name, then the
    record for the second. *)
Lemma compareSchemas_two specs name1 name2 :
  name2 <> EmptyString ->
  compareSchemas specs name1 name2 =
  specs ≫= fun spec => schema_records spec name1 ++ schema_records spec name2.
Proof.
  intros Hname; unfold compareSchemas.
  destruct name2 as [|c name2]; [contradiction|]; simpl nonempty; cbv iota.
  rewrite (foldl_push _ _ (compare_spec_push [name1; String c name2])); simpl.
  induction specs as [|spec specs IH]; [reflexivity|].
  rewrite !bind_cons, IH, app_nil_r; reflexivity.
Qed.

(** The tool called without [schema2] passes [schema1] twice. *)
Lemma compare_schemas_tool_omitted fetched sources this (args : Server.arguments) name :
  args !! "schema1" = Some name -> name <> EmptyString -> args !! "schema2" = None ->
  Server.CallTool fetched sources "compare_schemas" (Some args) this =
  (Server.JSON_stringify
     (Server.Comparison
        (Analyzer.specs this ≫= fun spec => schema_records spec name ++ schema_records spec name)),
   this).
Proof.
  intros H1 Hname H2; unfold Server.CallTool, Server.dispatch; simpl.
  rewrite H1, H2; destruct name as [|c name]; [contradiction|]; simpl.
  unfold mbind, Analyzer.Method_bind, Analyzer.bind, Analyzer.compareSchemas; simpl.
  rewrite (compareSchemas_two _ _ _ Hname); reflexivity.
Qed.

(** A registry with one spec that defines a [User] schema. *)
Definition user_schema : json :=
  JObj [("type", JStr "object"); ("properties", JObj [("id", JObj [("type", JStr "integer")])])].

Definition accounts_spec : OpenAPISpec.t :=
  {| OpenAPISpec.filename := "accounts.json";
     OpenAPISpec.spec := [("components", JObj [("schemas", JObj [("User", user_schema)])])];
     OpenAPISpec.info := Some (OpenAPIInfo.Build (Some "Accounts") (Some "1.0.0") None);
     OpenAPISpec.paths := None;
     OpenAPISpec.components := Some [("schemas", JObj [("User", user_schema)])] |}.

Definition accounts_registry : Analyzer.state :=
  {| Analyzer.specs := [accounts_spec];
     Analyzer.loadedSources := [];
     Analyzer.discoveryUrl := None;
     Analyzer.specUrls := [];
     Analyzer.specsFolder := Some "/specs" |}.

Definition user_record : SchemaComparison.t :=
  {| SchemaComparison.filename := "accounts.json";
     SchemaComparison.api := Some "Accounts";
     SchemaComparison.schemaName := "User";
     SchemaComparison.schema := user_schema |}.

(** C3: the method called with an empty second name returns the one [User]
    record of the one spec that defines it, but the [compare_schemas] tool
    called without [schema2] returns that record twice. *)
Theorem compare_schemas_tool_duplicates :
  compareSchemas [accounts_spec] "User" "" = [user_record]
  /\ Server.CallTool [] [] "compare_schemas" (Some {[ "schema1" := "User" ]}) accounts_registry =
     (Server.JSON_stringify (Server.Comparison [user_record; user_record]), accounts_registry).
Proof. split; vm_compute; reflexivity. Qed.

(** ** getSpecByFilename and the get_api_spec tool *)

Lemma getSpecByFilename_none specs filename :
  getSpecByFilename specs filename = None <->
  forall spec, spec ∈ specs -> OpenAPISpec.filename spec <> filename.
Proof.
  unfold getSpecByFilename; induction specs as [|s specs IH]; simpl.
  - split; [intros _ spec H; apply elem_of_nil in H; contradiction | reflexivity].
  - destruct (String.eqb_spec (OpenAPISpec.filename s) filename) as [Heq|Hne].
    + split; [discriminate|]. intros H; exfalso; apply (H s); [apply list_elem_of_here | exact Heq].
    + rewrite IH; split.
      * intros H spec Hin; apply elem_of_cons in Hin as [->|Hin]; auto.
      * intros H spec Hin; apply H, list_elem_of_further, Hin.
Qed.

Lemma getSpecByFilename_first before spec after filename :
  OpenAPISpec.filename spec = filename ->
  (forall s, s ∈ before -> OpenAPISpec.filename s <> filename) ->
  getSpecByFilename (before ++ spec :: after) filename = Some (OpenAPISpec.spec spec).
Proof.
  intros Heq; unfold getSpecByFilename; induction before as [|s before IH]; intros Hbefore; simpl.
  - rewrite (proj2 (String.eqb_eq _ _) Heq); reflexivity.
  - rewrite (proj2 (String.eqb_neq _ _) (Hbefore s (list_elem_of_here _ _))).
    apply IH; intros s' Hin; apply Hbefore, list_elem_of_further, Hin.
Qed.

(** C8: [getSpecByFilename] returns the raw document of the (first) spec
    with the given filename, and [null] when no spec has it, for every
    registry; the [get_api_spec] case never throws, and when a filename is
    given and no spec has it the response is the text
    "API spec not found: <filename>", with the registry untouched. *)
Theorem get_api_spec_not_found :
  (forall specs filename,
      (forall spec, spec ∈ specs -> OpenAPISpec.filename spec <> filename) ->
      getSpecByFilename specs filename = None)
  /\ (forall filename, getSpecByFilename [] filename = None)
  /\ (forall before spec after,
      (forall s, s ∈ before -> OpenAPISpec.filename s <> OpenAPISpec.filename spec) ->
      getSpecByFilename (before ++ spec :: after) (OpenAPISpec.filename spec) =
      Some (OpenAPISpec.spec spec))
  /\ (forall fetched sources (args : Server.arguments) this,
      exists response,
        Server.dispatch fetched sources "get_api_spec" args this = (Server.Return response, this))
  /\ (forall fetched sources (args : Server.arguments) this filename,
      args !! "filename" = Some filename -> filename <> EmptyString ->
      getSpecByFilename (Analyzer.specs this) filename = None ->
      Server.CallTool fetched sources "get_api_spec" (Some args) this =
      (Server.Plain ("API spec not found: " +:+ filename), this)).
Proof.
  refine (conj _ (conj _ (conj _ (conj _ _)))).
  - intros specs filename H; apply getSpecByFilename_none, H.
  - reflexivity.
  - intros before spec after H; apply getSpecByFilename_first; [reflexivity | exact H].
  - intros fetched sources args this; unfold Server.dispatch; simpl.
    destruct (Server.missing (args !! "filename")); [eexists; reflexivity|].
    unfold mbind, Analyzer.Method_bind, Analyzer.bind, Analyzer.getSpecByFilename; simpl.
    destruct (getSpecByFilename _ _); eexists; reflexivity.
  - intros fetched sources args this filename Harg Hname Hnone.
    unfold Server.CallTool, Server.dispatch; simpl; rewrite Harg.
    destruct filename as [|c filename]; [contradiction|]; simpl.
    unfold mbind, Analyzer.Method_bind, Analyzer.bind, Analyzer.getSpecByFilename; simpl.
    rewrite Hnone; reflexivity.
Qed.

Definition empty_registry : Analyzer.state :=
  {| Analyzer.specs := [];
     Analyzer.loadedSources := [];
     Analyzer.discoveryUrl := None;
     Analyzer.specUrls := [];
     Analyzer.specsFolder := Some "/specs" |}.

Lemma get_api_spec_not_found_witness :
  getSpecByFilename [accounts_spec] "missing.json" = None
  /\ getSpecByFilename [users_spec; accounts_spec] "accounts.json" =
     Some (OpenAPISpec.spec accounts_spec)
  /\ Server.CallTool [] [] "get_api_spec" (Some {[ "filename" := "missing.json" ]}) empty_registry =
     (Server.Plain "API spec not found: missing.json", empty_registry).
Proof.
  destruct get_api_spec_not_found as (Hnone & _ & Hfirst & _ & Htool).
  refine (conj _ (conj _ _)).
  - apply (Hnone [accounts_spec] "missing.json").
    intros spec Hin; apply list_elem_of_singleton in Hin as ->; discriminate.
  - apply (Hfirst [users_spec] accounts_spec []).
    intros s Hin; apply list_elem_of_singleton in Hin as ->; discriminate.
  - apply (Htool [] [] {[ "filename" := "missing.json" ]} empty_registry "missing.json");
      [reflexivity | discriminate | reflexivity].
Defined.

(** ** The query methods leave the analyzer as it was *)

Section ReadOnly.
Import Analyzer.

(** The object after the call is the object before it. *)
Definition read_only {A} (m : Method A) : Prop := forall this, (m this).2 = this.






Lemma assign_specs_writes this v : specs (assign_specs v this).2 = v.
Proof. reflexivity. Qed.

(** Reloading is not read-only: it replaces the registry. *)
Lemma loadSpecs_replaces fetched sources this :
  specs (loadSpecs fetched sources this).2 = fetched
  /\ loadedSources (loadSpecs fetched sources this).2 = sources.
Proof. split; reflexivity. Qed.



(** The same at the tool boundary: every tool but [load_specs] answers
    without changing the analyzer. *)
Lemma CallTool_query_read_only fetched sources name args :
  name <> "load_specs" -> read_only (Server.CallTool fetched sources name args).
Proof.
  intros Hname this; unfold Server.CallTool.
  destruct args as [args|]; [|reflexivity].
  unfold Server.dispatch.
  rewrite (proj2 (String.eqb_neq _ _) Hname).
  unfold mbind, Method_bind, bind, listAllSpecs, getSpecByFilename, searchEndpoints,
    getApiStats, findInconsistencies, compareSchemas, getLoadedSources, read.
  repeat match goal with
         | |- context [String.eqb name ?s] => destruct (String.eqb name s)
         | |- context [Server.missing ?x] => destruct (Server.missing x)
         end; simpl; try reflexivity.
  match goal with |- context [match ?lookup with Some _ => _ | None => _ end] =>
    destruct lookup end; reflexivity.
Qed.

End ReadOnly.

(** * Further properties of the engine *)

(** ** The per-spec method lists and the totals of getApiStats *)

Lemma Set_add_spec x set y : y ∈ Set_add x set <-> y = x \/ y ∈ set.
Proof.
  unfold Set_add; destruct (bool_decide_reflect (x ∈ set)) as [Hin|Hin].
  - split; [auto | intros [->|H]; assumption].
  - rewrite elem_of_app, list_elem_of_singleton; tauto.
Qed.

Lemma Set_add_NoDup x set : NoDup set -> NoDup (Set_add x set).
Proof.
  intros Hset; unfold Set_add; destruct (bool_decide_reflect (x ∈ set)) as [Hin|Hin];
    [exact Hset|].
  apply NoDup_app; repeat split; [exact Hset | | apply NoDup_singleton].
  intros y Hy Hx; apply list_elem_of_singleton in Hx as ->; contradiction.
Qed.

Lemma collect_methods_spec l set m :
  m ∈ collect_methods set l <-> m ∈ set \/ exists key, key ∈ l /\ toUpperCase key = m.
Proof.
  revert set; induction l as [|key l IH]; intros set.
  - simpl; split; [auto | intros [H|(key & H & _)]; [exact H | apply elem_of_nil in H; contradiction]].
  - unfold collect_methods in *; cbn [foldl]; rewrite IH, Set_add_spec; split.
    + intros [[->|H]|(k & Hk & E)]; eauto using list_elem_of_here, list_elem_of_further.
    + intros [H|(k & Hk & E)]; [auto|].
      apply elem_of_cons in Hk as [->|Hk]; [auto | right; eauto].
Qed.

Lemma collect_methods_NoDup l set : NoDup set -> NoDup (collect_methods set l).
Proof.
  revert set; induction l as [|key l IH]; intros set Hset; [exact Hset|].
  apply IH, Set_add_NoDup, Hset.
Qed.

#[local] Instance string_le_trans : Transitive string_le.
Proof. exact (_ : Transitive String.le). Qed.

#[local] Instance string_le_total : Total string_le.
Proof. exact String.le_total. Qed.

(** What [getApiStats] reports about one spec. *)
Definition describes (spec : OpenAPISpec.t) (entry : ApiEntry.t) : Prop :=
  ApiEntry.filename entry = OpenAPISpec.filename spec
  /\ StronglySorted string_le (ApiEntry.methods entry)
  /\ NoDup (ApiEntry.methods entry)
  /\ (forall m, m ∈ ApiEntry.methods entry <->
        exists key, key ∈ method_keys spec /\ recognized key /\ toUpperCase key = m)
  /\ (forall m, m ∈ ApiEntry.methods entry -> m ∈ recognizedVerbs).

Lemma recognized_upper key : recognized key -> toUpperCase key ∈ recognizedVerbs.
Proof.
  intros H; apply recognized_matches_verb in H as (verb & Hverb & Hcv).
  rewrite <- (case_variant_toUpperCase _ _ Hcv).
  unfold recognizedVerbs in *.
  repeat (apply elem_of_cons in Hverb as [-> | Hverb]; [vm_compute; set_solver|]).
  apply elem_of_nil in Hverb; contradiction.
Qed.

Lemma api_entry_describes spec : describes spec (api_entry spec).
Proof.
  assert (Hmem : forall m, m ∈ ApiEntry.methods (api_entry spec) <->
            exists key, key ∈ method_keys spec /\ recognized key /\ toUpperCase key = m).
  { intros m; unfold api_entry, sort_strings; cbn [ApiEntry.methods].
    rewrite merge_sort_Permutation, collect_methods_spec; split.
    - intros [H|(key & Hkey & E)]; [apply elem_of_nil in H; contradiction|].
      apply list_elem_of_filter in Hkey as [Hr Hin]; eauto.
    - intros (key & Hin & Hr & E); right; exists key; split; [|exact E].
      apply list_elem_of_filter; auto. }
  refine (conj eq_refl (conj _ (conj _ (conj Hmem _)))).
  - apply StronglySorted_merge_sort; apply _.
  - unfold api_entry, sort_strings; cbn [ApiEntry.methods].
    rewrite merge_sort_Permutation; apply collect_methods_NoDup, NoDup_nil_2.
  - intros m Hm; apply Hmem in Hm as (key & _ & Hr & <-); apply recognized_upper, Hr.
Qed.

(** X1: [apis] has one entry per spec, in registry order; the [methods] of
    an entry are in ascending order, without repetition, and are exactly
    the upper-cased keys of the spec's path items that are recognized
    verbs (so they are among the seven verbs). *)
Theorem getApiStats_apis_methods specs :
  Forall2 describes specs (ApiStats.apis (getApiStats specs)).
Proof.
  rewrite getApiStats_fields; cbn [ApiStats.apis].
  induction specs as [|spec specs IH]; constructor; [apply api_entry_describes | exact IH].
Qed.

(** X2: [totalEndpoints] is the sum of the endpoint counts of [apis], and
    [totalApis] is the number of entries of [apis]. *)
Theorem getApiStats_totals specs :
  ApiStats.totalEndpoints (getApiStats specs) =
    sum_list (map ApiEntry.endpointCount (ApiStats.apis (getApiStats specs)))
  /\ ApiStats.totalApis (getApiStats specs) = length (ApiStats.apis (getApiStats specs)).
Proof.
  rewrite getApiStats_fields; cbn [ApiStats.totalEndpoints ApiStats.totalApis ApiStats.apis].
  split; [|rewrite length_map; reflexivity].
  induction specs as [|spec specs IH]; [reflexivity|].
  rewrite bind_cons, filter_app, length_app, IH; reflexivity.
Qed.


(** X4: the keys of [methodCounts] are recognized verbs in upper case, each
    with the number of (path, key) pairs of the registry that spell it in
    some case; a verb is a key exactly when some entry of [apis] lists it. *)
Theorem methodCounts_keys specs :
  (forall verb,
      ApiStats.methodCounts (getApiStats specs) !! verb =
      if decide (verb ∈ map toUpperCase (filter recognized (specs ≫= method_keys)))
      then Some (length (filter (fun key => toUpperCase key = verb)
                                (filter recognized (specs ≫= method_keys))))
      else None)
  /\ (forall verb n,
      ApiStats.methodCounts (getApiStats specs) !! verb = Some n ->
      verb ∈ recognizedVerbs /\ 0 < n)
  /\ (forall verb,
      is_Some (ApiStats.methodCounts (getApiStats specs) !! verb) <->
      exists entry, entry ∈ ApiStats.apis (getApiStats specs) /\ verb ∈ ApiEntry.methods entry).
Proof.
  assert (Hlookup : forall verb,
      ApiStats.methodCounts (getApiStats specs) !! verb =
      if decide (verb ∈ map toUpperCase (filter recognized (specs ≫= method_keys)))
      then Some (length (filter (fun key => toUpperCase key = verb)
                                (filter recognized (specs ≫= method_keys))))
      else None).
  { intros verb; rewrite getApiStats_fields; cbn [ApiStats.methodCounts]; apply lookup_tally. }
  assert (Hin : forall verb,
      verb ∈ map toUpperCase (filter recognized (specs ≫= method_keys)) <->
      exists spec key, spec ∈ specs /\ key ∈ method_keys spec /\ recognized key
                       /\ toUpperCase key = verb).
  { intros verb; change (map toUpperCase) with (fmap (M := list) toUpperCase).
    rewrite list_elem_of_fmap; split.
    - intros (key & -> & Hkey); apply list_elem_of_filter in Hkey as [Hr Hkey].
      apply list_elem_of_bind in Hkey as (spec & Hkey & Hspec); eauto 10.
    - intros (spec & key & Hspec & Hkey & Hr & <-); exists key; split; [reflexivity|].
      apply list_elem_of_filter; split; [exact Hr|].
      apply list_elem_of_bind; eauto. }
  refine (conj Hlookup (conj _ _)).
  - intros verb n; rewrite Hlookup.
    destruct (decide _) as [Hv|Hv]; [|discriminate].
    intros [= <-]; apply Hin in Hv as (spec & key & Hspec & Hkey & Hr & <-); split.
    + apply recognized_upper, Hr.
    + assert (Hk : key ∈ filter (fun k => toUpperCase k = toUpperCase key)
                               (filter recognized (specs ≫= method_keys))).
      { apply list_elem_of_filter; split; [reflexivity|].
        apply list_elem_of_filter; split; [exact Hr|].
        apply list_elem_of_bind; eauto. }
      revert Hk.
      generalize (filter (fun k => toUpperCase k = toUpperCase key)
                         (filter recognized (specs ≫= method_keys))).
      intros [|k l] Hk; [apply elem_of_nil in Hk; contradiction | simpl; lia].
  - intros verb; rewrite Hlookup.
    destruct (decide _) as [Hv|Hv].
    + split; [intros _ | eauto].
      apply Hin in Hv as (spec & key & Hspec & Hkey & Hr & <-).
      exists (api_entry spec); split.
      * rewrite getApiStats_fields; cbn [ApiStats.apis].
        change (map api_entry) with (fmap (M := list) api_entry).
        apply list_elem_of_fmap; eauto.
      * apply (api_entry_describes spec); eauto.
    + split; [intros [? [=]]|].
      intros (entry & Hentry & Hverb); exfalso; apply Hv, Hin.
      rewrite getApiStats_fields in Hentry; cbn [ApiStats.apis] in Hentry.
      change (map api_entry) with (fmap (M := list) api_entry) in Hentry.
      apply list_elem_of_fmap in Hentry as (spec & -> & Hspec).
      apply (api_entry_describes spec) in Hverb as (key & Hkey & Hr & E); eauto 10.
Qed.

Lemma methodCounts_keys_witness :
  ApiStats.methodCounts (getApiStats [users_spec; orders_spec]) !! "GET" = Some 2
  /\ ("GET" ∈ recognizedVerbs /\ 0 < 2).
Proof.
  assert (H : ApiStats.methodCounts (getApiStats [users_spec; orders_spec]) !! "GET" = Some 2)
    by (vm_compute; reflexivity).
  split; [exact H|].
  apply (proj1 (proj2 (methodCounts_keys [users_spec; orders_spec])) "GET" 2 H).
Defined.

(** ** Narrowing a search *)

Lemma bind_sublist {A B} (f g : A -> list B) (l : list A) :
  (forall x, f x `sublist_of` g x) -> (l ≫= f) `sublist_of` (l ≫= g).
Proof.
  intros H; induction l as [|x l IH]; [constructor|].
  rewrite !bind_cons; apply sublist_app; auto.
Qed.

Lemma includes_trans text long short :
  includes text long = true -> includes long short = true -> includes text short = true.
Proof.
  rewrite !includes_spec; intros (pre & post & ->) (pre' & post' & ->).
  exists (pre +:+ pre'), (post' +:+ post).
  rewrite !append_assoc; reflexivity.
Qed.

Lemma includes_empty text : includes text EmptyString = true.
Proof. destruct text; reflexivity. Qed.

Lemma search_hit_sublist lowerLong lowerShort spec path entry :
  includes lowerLong lowerShort = true ->
  search_hit lowerLong spec path entry `sublist_of` search_hit lowerShort spec path entry.
Proof.
  intros Hsub; unfold search_hit, search_operation; destruct entry as [method operation].
  destruct (negb (is_object operation)); [constructor|]; simpl.
  destruct (includes (searchableText path method operation) lowerLong) eqn:Hlong.
  - rewrite (includes_trans _ _ _ Hlong Hsub); reflexivity.
  - apply sublist_nil_l.
Qed.

(** X5: a longer query narrows the search: when the lower-cased [query1]
    occurs in the lower-cased [query2], the results for [query2] are a
    subsequence of the results for [query1]; in particular every result
    list is a subsequence of the one for the empty query. *)
Theorem searchEndpoints_narrowing specs query1 query2 :
  (includes (toLowerCase query2) (toLowerCase query1) = true ->
   searchEndpoints specs query2 `sublist_of` searchEndpoints specs query1)
  /\ searchEndpoints specs query2 `sublist_of` searchEndpoints specs EmptyString.
Proof.
  assert (H : forall q, includes (toLowerCase query2) (toLowerCase q) = true ->
            searchEndpoints specs query2 `sublist_of` searchEndpoints specs q).
  { intros q Hq; rewrite !searchEndpoints_hits.
    apply bind_sublist; intros spec; apply bind_sublist; intros [path pathItem].
    apply bind_sublist; intros entry; apply search_hit_sublist, Hq. }
  split; [apply H | apply H, includes_empty].
Qed.

Lemma searchEndpoints_narrowing_witness :
  includes (toLowerCase "Get One") (toLowerCase "GET") = true
  /\ searchEndpoints [users_spec; orders_spec] "Get One"
     `sublist_of` searchEndpoints [users_spec; orders_spec] "GET".
Proof.
  split; [reflexivity|].
  apply (proj1 (searchEndpoints_narrowing [users_spec; orders_spec] "GET" "Get One")).
  reflexivity.
Defined.

(** The keys of a path item whose value passes the [typeof] guard. *)
Definition object_keys (pathItem : PathItem) : list string :=
  map fst (filter (fun entry : string * json => is_object entry.2 = true) pathItem).

(** X6: the empty query matches everything: the search then returns one
    result for every key of every path item whose value is an object or an
    array, in spec-then-path-then-key order, with the key in upper case. *)
Theorem searchEndpoints_empty_query specs :
  map (fun r => (SearchResult.filename r, SearchResult.path r, SearchResult.method r))
      (searchEndpoints specs EmptyString) =
  specs ≫= fun spec =>
    paths_of spec ≫= fun entry =>
      map (fun key => (OpenAPISpec.filename spec, entry.1, toUpperCase key))
          (object_keys entry.2).
Proof.
  rewrite searchEndpoints_hits.
  induction specs as [|spec specs IH]; [reflexivity|].
  rewrite !bind_cons, map_app, IH; f_equal.
  induction (paths_of spec) as [|[path pathItem] paths IHp]; [reflexivity|].
  rewrite !bind_cons, map_app, IHp; f_equal; simpl.
  unfold object_keys.
  induction pathItem as [|[method operation] pathItem IHi]; [reflexivity|].
  rewrite bind_cons, map_app, IHi, filter_cons; simpl.
  unfold search_hit, search_operation.
  destruct (is_object operation); simpl; [|reflexivity].
  rewrite includes_empty; reflexivity.
Qed.

(** ** Listing and lookup *)

Lemma getSpecByFilename_some specs filename doc :
  getSpecByFilename specs filename = Some doc ->
  exists spec, spec ∈ specs /\ OpenAPISpec.filename spec = filename
               /\ doc = OpenAPISpec.spec spec.
Proof.
  unfold getSpecByFilename; induction specs as [|s specs IH]; simpl; [discriminate|].
  destruct (String.eqb_spec (OpenAPISpec.filename s) filename) as [Heq|Hne].
  - intros [= <-]; exists s; split; [apply list_elem_of_here | auto].
  - intros H; destruct (IH H) as (spec & Hin & E); exists spec; split;
      [apply list_elem_of_further, Hin | exact E].
Qed.

(** X7: [listAllSpecs] and [getSpecByFilename] agree: the summaries carry
    the filenames of the registry in its order, and a filename is found by
    [getSpecByFilename] exactly when a summary carries it. *)
Theorem listAllSpecs_getSpecByFilename specs filename :
  map ApiSummary.filename (listAllSpecs specs) = map OpenAPISpec.filename specs
  /\ (is_Some (getSpecByFilename specs filename) <->
      filename ∈ map ApiSummary.filename (listAllSpecs specs)).
Proof.
  assert (Hnames : map ApiSummary.filename (listAllSpecs specs) =
                   map OpenAPISpec.filename specs)
    by (unfold listAllSpecs; rewrite map_map; reflexivity).
  split; [exact Hnames|]. rewrite Hnames.
  change (map OpenAPISpec.filename) with (fmap (M := list) OpenAPISpec.filename).
  rewrite list_elem_of_fmap; split.
  - intros [doc Hdoc].
    apply getSpecByFilename_some in Hdoc as (spec & Hin & E & _); eauto.
  - intros (spec & -> & Hin).
    destruct (getSpecByFilename specs (OpenAPISpec.filename spec)) eqn:E; [eauto|].
    exfalso; exact (proj1 (getSpecByFilename_none _ _) E spec Hin eq_refl).
Qed.

Lemma str_or_nonempty o d : d <> EmptyString -> str_or o d <> EmptyString.
Proof.
  intros Hd; unfold str_or; destruct o as [[|c s]|]; simpl; [exact Hd | discriminate | exact Hd].
Qed.

(** X8: a summary never has an empty title, version or description; a spec
    without [info] and without [paths] is listed with the three
    placeholders and endpoint count 0. *)
Theorem listAllSpecs_placeholders specs :
  Forall (fun summary =>
            ApiSummary.title summary <> EmptyString
            /\ ApiSummary.version summary <> EmptyString
            /\ ApiSummary.description summary <> EmptyString)
         (listAllSpecs specs)
  /\ (forall filename doc components,
        listAllSpecs [ {| OpenAPISpec.filename := filename; OpenAPISpec.spec := doc;
                          OpenAPISpec.info := None; OpenAPISpec.paths := None;
                          OpenAPISpec.components := components |} ] =
        [ {| ApiSummary.filename := filename;
             ApiSummary.title := "No title";
             ApiSummary.version := "No version";
             ApiSummary.description := "No description";
             ApiSummary.endpointCount := 0 |} ]).
Proof.
  split; [|reflexivity].
  unfold listAllSpecs; apply Forall_forall; intros summary Hin.
  change (map ?f specs) with (fmap (M := list) f specs) in Hin.
  apply list_elem_of_fmap in Hin as (spec & -> & _); simpl.
  repeat split; apply str_or_nonempty; discriminate.
Qed.

(** ** More on compareSchemas *)

Lemma schema_records_name spec name r :
  r ∈ schema_records spec name ->
  SchemaComparison.schemaName r = name
  /\ SchemaComparison.filename r = OpenAPISpec.filename spec.
Proof.
  unfold schema_records; destruct (defined_schema spec name); intros H.
  - apply list_elem_of_singleton in H as ->; auto.
  - apply elem_of_nil in H; contradiction.
Qed.

Lemma filter_schema_records_same spec name :
  filter (fun r => SchemaComparison.schemaName r = name) (schema_records spec name) =
  schema_records spec name.
Proof.
  unfold schema_records; destruct (defined_schema spec name); [|reflexivity].
  rewrite filter_cons; simpl; rewrite decide_True by reflexivity; reflexivity.
Qed.

Lemma filter_schema_records_other spec name other :
  other <> name ->
  filter (fun r => SchemaComparison.schemaName r = name) (schema_records spec other) = [].
Proof.
  intros Hne; unfold schema_records; destruct (defined_schema spec other); [|reflexivity].
  rewrite filter_cons; simpl; rewrite decide_False by exact Hne; reflexivity.
Qed.

(** X9: with two distinct names the result splits by name into the two
    single-name results: keeping the records of one name gives what the
    single-name call for that name returns. *)
Theorem compareSchemas_by_name specs name1 name2 :
  name1 <> name2 -> name1 <> EmptyString -> name2 <> EmptyString ->
  filter (fun r => SchemaComparison.schemaName r = name1) (compareSchemas specs name1 name2) =
    compareSchemas specs name1 EmptyString
  /\ filter (fun r => SchemaComparison.schemaName r = name2) (compareSchemas specs name1 name2) =
    compareSchemas specs name2 EmptyString.
Proof.
  intros Hne H1 H2; rewrite (compareSchemas_two _ _ _ H2), !compareSchemas_single.
  split; induction specs as [|spec specs IH]; try reflexivity;
    rewrite !bind_cons, !filter_app, IH; f_equal.
  - rewrite filter_schema_records_same, filter_schema_records_other by congruence.
    apply app_nil_r.
  - rewrite filter_schema_records_same, filter_schema_records_other by congruence.
    reflexivity.
Qed.

Lemma compareSchemas_by_name_witness :
  "User" <> "Product" /\ "User" <> EmptyString /\ "Product" <> EmptyString /\
  (filter (fun r => SchemaComparison.schemaName r = "User")
          (compareSchemas [accounts_spec; users_spec] "User" "Product") =
     compareSchemas [accounts_spec; users_spec] "User" EmptyString
   /\ filter (fun r => SchemaComparison.schemaName r = "Product")
             (compareSchemas [accounts_spec; users_spec] "User" "Product") =
     compareSchemas [accounts_spec; users_spec] "Product" EmptyString).
Proof.
  refine (conj _ (conj _ (conj _ _))); try discriminate.
  apply (compareSchemas_by_name [accounts_spec; users_spec] "User" "Product"); discriminate.
Defined.

Lemma length_schema_records spec name : length (schema_records spec name) <= 1.
Proof. unfold schema_records; destruct (defined_schema spec name); simpl; lia. Qed.

(** X10: the method returns at most one record per spec for a single name
    and at most two per spec for two names; when both names are the same
    non-empty name every record of the single-name result comes twice. *)
Theorem compareSchemas_sizes specs name1 name2 :
  length (compareSchemas specs name1 EmptyString) <= length specs
  /\ length (compareSchemas specs name1 name2) <= 2 * length specs
  /\ (name1 <> EmptyString ->
      compareSchemas specs name1 name1 =
        (specs ≫= fun spec => schema_records spec name1 ++ schema_records spec name1)
      /\ length (compareSchemas specs name1 name1) =
         2 * length (compareSchemas specs name1 EmptyString)).
Proof.
  assert (Hsingle : forall name, length (specs ≫= fun spec => schema_records spec name)
                                 <= length specs).
  { intros name; induction specs as [|spec specs IH]; [reflexivity|].
    rewrite bind_cons, length_app; pose proof (length_schema_records spec name); simpl; lia. }
  refine (conj _ (conj _ _)).
  - rewrite compareSchemas_single; apply Hsingle.
  - destruct name2 as [|c name2].
    + rewrite compareSchemas_single; specialize (Hsingle name1); lia.
    + rewrite compareSchemas_two by discriminate.
      clear Hsingle; induction specs as [|spec specs IH]; [simpl; lia|].
      rewrite bind_cons, !length_app.
      pose proof (length_schema_records spec name1).
      pose proof (length_schema_records spec (String c name2)).
      rewrite length_cons; lia.
  - intros Hname; rewrite (compareSchemas_two _ _ _ Hname), compareSchemas_single.
    split; [reflexivity|].
    clear Hsingle; induction specs as [|spec specs IH]; [reflexivity|].
    rewrite !bind_cons, !length_app, IH; lia.
Qed.

Lemma compareSchemas_sizes_witness :
  "User" <> EmptyString /\
  (compareSchemas [accounts_spec] "User" "User" =
     ([accounts_spec] ≫= fun spec => schema_records spec "User" ++ schema_records spec "User")
   /\ length (compareSchemas [accounts_spec] "User" "User") =
      2 * length (compareSchemas [accounts_spec] "User" EmptyString)).
Proof.
  split; [discriminate|].
  apply (proj2 (proj2 (compareSchemas_sizes [accounts_spec] "User" EmptyString))).
  discriminate.
Defined.

(** ** More on findInconsistencies *)









(** ** The path pattern is stable *)

Lemma replace_params_suffix skip s :
  exists rest, replace_params skip s = replace_params 0 rest
               /\ String.length rest <= String.length s.
Proof.
  revert skip; induction s as [|c s IH]; intros skip.
  - exists EmptyString; split; [destruct skip; reflexivity | reflexivity].
  - destruct skip as [|k].
    + exists (String c s); split; [reflexivity | reflexivity].
    + destruct (IH k) as (rest & E & Hlen); exists rest; split; [exact E | simpl; lia].
Qed.

Lemma replace_params_no_close s : find_close s = None -> replace_params 0 s = s.
Proof.
  induction s as [|c s IH]; [reflexivity|]; simpl.
  destruct (Ascii.eqb c "}"); [discriminate|].
  destruct (find_close s) as [k|]; [discriminate|]; intros _.
  rewrite (IH eq_refl); destruct (Ascii.eqb c "{"); reflexivity.
Qed.

Lemma replace_params_id_token rest :
  replace_params 0 ("{id}" +:+ rest) = "{id}" +:+ replace_params 0 rest.
Proof. reflexivity. Qed.

Lemma pathPattern_stable_bounded n :
  forall s, String.length s <= n ->
    replace_params 0 (replace_params 0 s) = replace_params 0 s.
Proof.
  induction n as [|n IH]; intros [|c s] Hlen; try reflexivity; [simpl in Hlen; lia|].
  assert (Hs : String.length s <= n) by (simpl in Hlen; lia).
  cbn [replace_params].
  destruct (Ascii.eqb c "{") eqn:Hopen.
  - apply Ascii.eqb_eq in Hopen as ->.
    destruct (find_close s) as [[|k]|] eqn:Hclose.
    + destruct s as [|d s]; [discriminate|]; simpl in Hclose.
      destruct (Ascii.eqb d "}") eqn:Hd; [apply Ascii.eqb_eq in Hd as ->|
        destruct (find_close s); discriminate].
      assert (Hs' : String.length s <= n) by (simpl in Hs; lia).
      change (replace_params 0 (String "}" s)) with (String "}" (replace_params 0 s)).
      change (replace_params 0 (String "{" (String "}" (replace_params 0 s))))
        with (String "{" (String "}" (replace_params 0 (replace_params 0 s)))).
      rewrite (IH s Hs'); reflexivity.
    + destruct (replace_params_suffix (S (S k)) s) as (rest & -> & Hrest).
      rewrite replace_params_id_token, (IH rest) by lia; reflexivity.
    + rewrite (replace_params_no_close s Hclose).
      simpl; rewrite Hclose; rewrite (replace_params_no_close s Hclose); reflexivity.
  - cbn [replace_params]; rewrite Hopen, (IH s Hs); reflexivity.
Qed.

(** X13: normalising a path twice is the same as normalising it once, for
    every string: the patterns used as keys of [commonPaths] are fixed
    points of the normalisation. *)
Theorem pathPattern_idempotent path : pathPattern (pathPattern path) = pathPattern path.
Proof. apply (pathPattern_stable_bounded (String.length path)); reflexivity. Qed.

(** * The tool list and the handler *)

Module Tool.
(** One property of an input schema: its type and description. *)
Record property : Type := Property {
  type : string;
  property_description : string
}.

Record t : Type := Build {
  name : string;
  description : string;
  properties : list (string * property);
  required : option (list string)
}.
End Tool.

(** The array [tools] that the [ListToolsRequestSchema] handler returns. *)
Definition tools : list Tool.t :=
  [ {| Tool.name := "load_specs";
       Tool.description := "Load all OpenAPI specifications from the configured folder";
       Tool.properties := [];
       Tool.required := None |};
    {| Tool.name := "list_apis";
       Tool.description := "List all loaded API specifications with basic info";
       Tool.properties := [];
       Tool.required := None |};
    {| Tool.name := "get_api_spec";
       Tool.description := "Get the full OpenAPI spec for a specific file";
       Tool.properties :=
         [("filename", Tool.Property "string" "The filename of the OpenAPI spec")];
       Tool.required := Some ["filename"] |};
    {| Tool.name := "search_endpoints";
       Tool.description := "Search for endpoints across all APIs by keyword";
       Tool.properties :=
         [("query",
           Tool.Property "string"
             "Search term to find in paths, methods, summaries, or descriptions")];
       Tool.required := Some ["query"] |};
    {| Tool.name := "get_api_stats";
       Tool.description := "Get comprehensive statistics about all loaded APIs";
       Tool.properties := [];
       Tool.required := None |};
    {| Tool.name := "find_inconsistencies";
       Tool.description := "Find naming conventions and other inconsistencies across APIs";
       Tool.properties := [];
       Tool.required := None |};
    {| Tool.name := "compare_schemas";
       Tool.description := "Compare schemas with the same name across different APIs";
       Tool.properties :=
         [("schema1", Tool.Property "string" "First schema name to compare");
          ("schema2", Tool.Property "string" "Second schema name to compare (optional)")];
       Tool.required := Some ["schema1"] |};
    {| Tool.name := "get_load_sources";
       Tool.description :=
         "Get information about where OpenAPI specs were loaded from (discovery URL, individual URLs, or local folder)";
       Tool.properties := [];
       Tool.required := None |} ].

Definition tool_names : list string := map Tool.name tools.

Lemma dispatch_unknown fetched sources name args this :
  name ∉ tool_names ->
  Server.dispatch fetched sources name args this =
  (Server.Throw ("Error: Unknown tool: " +:+ name), this).
Proof.
  intros Hname; unfold Server.dispatch.
  repeat match goal with
         | |- context [String.eqb name ?s] =>
             destruct (String.eqb_spec name s) as [->|_];
             [exfalso; apply Hname; vm_compute; set_solver|]
         end.
  reflexivity.
Qed.

Lemma dispatch_known fetched sources name args this :
  name ∈ tool_names ->
  exists response this', Server.dispatch fetched sources name args this =
                         (Server.Return response, this').
Proof.
  intros Hname; unfold tool_names, tools in Hname; simpl in Hname.
  unfold mbind, Analyzer.Method_bind, Analyzer.bind.
  repeat (apply elem_of_cons in Hname as [-> | Hname];
          [unfold Server.dispatch; simpl;
           repeat match goal with
                  | |- context [Server.missing ?x] => destruct (Server.missing x)
                  end;
           unfold mbind, Analyzer.Method_bind, Analyzer.bind, Analyzer.getSpecByFilename; simpl;
           try match goal with
               | |- context [match ?lookup with Some _ => _ | None => _ end] =>
                   destruct lookup
               end;
           eexists _, _; reflexivity|]).
  apply elem_of_nil in Hname; contradiction.
Qed.

(** X14: the tool list and the handler agree: a tool name is in the list
    that [ListTools] returns exactly when the switch has a case for it;
    for any other name the handler answers with the text
    "Error: Error: Unknown tool: <name>" and leaves the analyzer alone. *)
Theorem tools_are_the_handled_names name :
  (name ∈ tool_names <->
   forall fetched sources args this,
     exists response this',
       Server.dispatch fetched sources name args this = (Server.Return response, this'))
  /\ (name ∉ tool_names ->
      forall fetched sources args this,
        Server.CallTool fetched sources name (Some args) this =
        (Server.Plain ("Error: Error: Unknown tool: " +:+ name), this)).
Proof.
  split; [split|].
  - intros Hname fetched sources args this; apply dispatch_known, Hname.
  - intros H; destruct (decide (name ∈ tool_names)) as [Hin|Hout]; [exact Hin|].
    destruct (H [] [] ∅ empty_registry) as (response & this' & E).
    rewrite (dispatch_unknown _ _ _ _ _ Hout) in E; discriminate.
  - intros Hout fetched sources args this; unfold Server.CallTool.
    unfold mbind, Analyzer.Method_bind, Analyzer.bind.
    rewrite (dispatch_unknown _ _ _ _ _ Hout); reflexivity.
Qed.

Lemma tools_are_the_handled_names_witness :
  ("delete_spec" ∉ tool_names) /\
  (Server.CallTool [] [] "delete_spec" (Some ∅) accounts_registry =
   (Server.Plain "Error: Error: Unknown tool: delete_spec", accounts_registry)).
Proof.
  assert (H : "delete_spec" ∉ tool_names) by (vm_compute; set_solver).
  split; [exact H|].
  apply (proj2 (tools_are_the_handled_names "delete_spec") H [] [] ∅ accounts_registry).
Defined.

(** X15: an argument that a tool's input schema lists as required is
    enforced by the handler: when it is absent or empty the answer is the
    text "Error: <argument> parameter is required" and the analyzer is
    unchanged; and a call without an arguments object is refused for
    every tool, also for those that take no argument. *)
Theorem required_arguments_enforced fetched sources this :
  (forall tool argument (args : Server.arguments),
      tool ∈ tools -> argument ∈ default [] (Tool.required tool) ->
      Server.missing (args !! argument) = true ->
      Server.CallTool fetched sources (Tool.name tool) (Some args) this =
      (Server.Plain ("Error: " +:+ argument +:+ " parameter is required"), this))
  /\ (forall name,
      Server.CallTool fetched sources name None this =
      (Server.Plain "Error: No arguments provided", this)).
Proof.
  split; [|reflexivity].
  intros tool argument args Htool Harg Hmissing; unfold tools in Htool.
  repeat (apply elem_of_cons in Htool as [-> | Htool];
          [simpl in Harg;
           try (apply elem_of_nil in Harg; contradiction);
           apply list_elem_of_singleton in Harg as ->;
           unfold Server.CallTool, Server.dispatch; simpl; rewrite ?Hmissing;
           try reflexivity|]).
  apply elem_of_nil in Htool; contradiction.
Qed.

Lemma required_arguments_enforced_witness :
  Server.CallTool [] [] "search_endpoints" (Some {[ "query" := "" ]}) accounts_registry =
  (Server.Plain "Error: query parameter is required", accounts_registry).
Proof.
  apply (proj1 (required_arguments_enforced [] [] accounts_registry)
           {| Tool.name := "search_endpoints";
              Tool.description := "Search for endpoints across all APIs by keyword";
              Tool.properties :=
                [("query",
                  Tool.Property "string"
                    "Search term to find in paths, methods, summaries, or descriptions")];
              Tool.required := Some ["query"] |}
           "query" {[ "query" := "" ]}).
  - unfold tools; do 3 apply list_elem_of_further; apply list_elem_of_here.
  - apply list_elem_of_here.
  - reflexivity.
Defined.

(** * Configuration *)

(** ** The list of spec URLs in the environment *)

(** [String.prototype.split] with a one-character separator. *)
Fixpoint split (sep : ascii) (s : string) : list string :=
  match s with
  | EmptyString => [EmptyString]
  | String c rest =>
      if Ascii.eqb c sep then EmptyString :: split sep rest
      else match split sep rest with
           | piece :: pieces => String c piece :: pieces
           | [] => [String c EmptyString]
           end
  end.

(** The white space and line terminators that [trim] removes. *)
Definition is_space (c : ascii) : bool :=
  let n := nat_of_ascii c in ((9 <=? n)%nat && (n <=? 13)%nat) || (n =? 32)%nat.

Fixpoint trimStart (s : string) : string :=
  match s with
  | EmptyString => EmptyString
  | String c rest => if is_space c then trimStart rest else s
  end.

Fixpoint trimEnd (s : string) : string :=
  match s with
  | EmptyString => EmptyString
  | String c rest =>
      match trimEnd rest with
      | EmptyString => if is_space c then EmptyString else String c EmptyString
      | kept => String c kept
      end
  end.

(** [String.prototype.trim] *)
Definition trim (s : string) : string := trimEnd (trimStart s).

(** [process.env.OPENAPI_SPEC_URLS?.split(',').map(url => url.trim()).filter(Boolean) || []] *)
Definition SPEC_URLS (OPENAPI_SPEC_URLS : option string) : list string :=
  match OPENAPI_SPEC_URLS with
  | Some value => filter (fun url => nonempty url = true) (map trim (split "," value))
  | None => []
  end.

Lemma split_not_nil sep s : split sep s <> [].
Proof.
  destruct s as [|c s]; simpl; [discriminate|].
  destruct (Ascii.eqb c sep); [discriminate|].
  destruct (split sep s); discriminate.
Qed.

Lemma split_no_separator sep s piece :
  piece ∈ split sep s -> mentions sep piece = false.
Proof.
  revert piece; induction s as [|c s IH]; intros piece; simpl.
  - intros H; apply list_elem_of_singleton in H as ->; reflexivity.
  - destruct (Ascii.eqb c sep) eqn:Hc.
    + intros H; apply elem_of_cons in H as [->|H]; [reflexivity | apply IH, H].
    + destruct (split sep s) as [|p ps] eqn:Hsplit;
        [exfalso; exact (split_not_nil _ _ Hsplit)|].
      intros H; apply elem_of_cons in H as [->|H].
      * simpl; rewrite Hc; apply IH, list_elem_of_here.
      * apply IH, list_elem_of_further, H.
Qed.

Lemma split_piece sep piece :
  mentions sep piece = false -> split sep piece = [piece].
Proof.
  induction piece as [|c piece IH]; simpl; [reflexivity|].
  intros H; apply orb_false_iff in H as [Hc Hpiece].
  rewrite Hc, (IH Hpiece); reflexivity.
Qed.

Lemma split_join sep piece rest :
  mentions sep piece = false ->
  split sep (piece +:+ String sep rest) = piece :: split sep rest.
Proof.
  induction piece as [|c piece IH]; simpl.
  - intros _; rewrite Ascii.eqb_refl; reflexivity.
  - intros H; apply orb_false_iff in H as [Hc Hpiece].
    rewrite Hc, (IH Hpiece); reflexivity.
Qed.

Lemma trimStart_mentions sep s : mentions sep s = false -> mentions sep (trimStart s) = false.
Proof.
  induction s as [|c s IH]; simpl; [reflexivity|].
  intros H; destruct (is_space c); [|exact H].
  apply orb_false_iff in H as [_ H]; apply IH, H.
Qed.

Lemma trimEnd_mentions sep s : mentions sep s = false -> mentions sep (trimEnd s) = false.
Proof.
  induction s as [|c s IH]; simpl; [reflexivity|].
  intros H; apply orb_false_iff in H as [Hc Hs]; specialize (IH Hs).
  destruct (trimEnd s) as [|d kept].
  - destruct (is_space c); simpl; [reflexivity | rewrite Hc; reflexivity].
  - simpl in *; rewrite Hc; exact IH.
Qed.

(** A string that neither starts nor ends with white space. *)
Definition trimmed (s : string) : Prop := trim s = s.

Lemma trimEnd_idempotent s : trimEnd (trimEnd s) = trimEnd s.
Proof.
  induction s as [|c s IH]; [reflexivity|]; simpl.
  destruct (trimEnd s) as [|d kept] eqn:Hs.
  - destruct (is_space c) eqn:Hc; simpl; [reflexivity | rewrite Hc; reflexivity].
  - cbn [trimEnd] in IH |- *; rewrite IH; reflexivity.
Qed.

Lemma trimStart_fixed c s : is_space c = false -> trimStart (String c s) = String c s.
Proof. intros H; simpl; rewrite H; reflexivity. Qed.

Lemma trimEnd_head c s :
  is_space c = false -> exists kept, trimEnd (String c s) = String c kept.
Proof.
  intros Hc; simpl; destruct (trimEnd s); [rewrite Hc|]; eauto.
Qed.

Lemma trimStart_head s : trimStart s = EmptyString \/
  exists c rest, trimStart s = String c rest /\ is_space c = false.
Proof.
  induction s as [|c s IH]; simpl; [auto|].
  destruct (is_space c) eqn:Hc; [exact IH | right; eauto].
Qed.

Lemma trim_idempotent s : trim (trim s) = trim s.
Proof.
  unfold trim; destruct (trimStart_head s) as [->|(c & rest & -> & Hc)]; [reflexivity|].
  destruct (trimEnd_head c rest Hc) as [kept E].
  rewrite E, (trimStart_fixed _ _ Hc), <- E; apply trimEnd_idempotent.
Qed.

(** X16: every entry of [SPEC_URLS] is non-empty, contains no comma and has
    no white space at either end; an unset or empty variable gives no
    URL; and a list of such entries joined with commas, with or without
    a blank after each comma, is read back unchanged. *)
Theorem SPEC_URLS_entries :
  (forall value url,
      url ∈ SPEC_URLS value ->
      url <> EmptyString /\ mentions "," url = false /\ trimmed url)
  /\ SPEC_URLS None = [] /\ SPEC_URLS (Some EmptyString) = []
  /\ (forall urls,
      Forall (fun url => url <> EmptyString /\ mentions "," url = false /\ trimmed url) urls ->
      SPEC_URLS (Some (join "," urls)) = urls /\ SPEC_URLS (Some (join ", " urls)) = urls).
Proof.
  refine (conj _ (conj eq_refl (conj eq_refl _))).
  - intros [value|] url; simpl; [|intros H; apply elem_of_nil in H; contradiction].
    intros H; apply list_elem_of_filter in H as [Hne H].
    change (map trim) with (fmap (M := list) trim) in H.
    apply list_elem_of_fmap in H as (piece & -> & Hpiece).
    refine (conj _ (conj _ _)).
    + intros E; rewrite E in Hne; discriminate.
    + apply trimEnd_mentions, trimStart_mentions, (split_no_separator _ _ _ Hpiece).
    + apply trim_idempotent.
  - intros urls Hurls; unfold SPEC_URLS.
    assert (Hgen : forall blank,
      trim blank = EmptyString -> mentions "," blank = false ->
      filter (fun url => nonempty url = true)
             (map trim (split "," (String.concat (String "," blank) urls))) = urls).
    { intros blank Hblank Hcomma.
      induction Hurls as [|url urls (Hne & Hc & Ht) Hrest IH]; [reflexivity|].
      assert (Hkeep : filter (fun u => nonempty u = true) [trim url] = [url]).
      { rewrite Ht; destruct url; [contradiction | reflexivity]. }
      destruct urls as [|next urls].
      - simpl String.concat; rewrite (split_piece _ _ Hc); exact Hkeep.
      - change (String.concat (String "," blank) (url :: next :: urls))
          with (url +:+ String "," (blank +:+ String.concat (String "," blank) (next :: urls))).
        rewrite (split_join _ _ _ Hc); cbn [map]; rewrite filter_cons.
        rewrite Ht; destruct (decide (nonempty url = true)) as [_|Hempty];
          [|destruct url; [contradiction | exfalso; apply Hempty; reflexivity]].
        f_equal.
        inversion Hrest as [|? ? (Hne' & Hc' & Ht') Hrest' E]; subst.
        specialize (IH).
        revert IH; generalize (String.concat (String "," blank) (next :: urls)).
        intros tail IH.
        assert (Hhead : forall piece pieces,
          split "," tail = piece :: pieces ->
          split "," (blank +:+ tail) = (blank +:+ piece) :: pieces).
        { clear -Hcomma; intros piece pieces E.
          induction blank as [|b blank IHb]; [exact E|].
          simpl in Hcomma; apply orb_false_iff in Hcomma as [Hb Hcomma].
          rewrite append_cons; simpl; rewrite Hb, (IHb Hcomma); reflexivity. }
        destruct (split "," tail) as [|piece pieces] eqn:Hsplit;
          [exfalso; exact (split_not_nil _ _ Hsplit)|].
        rewrite (Hhead _ _ eq_refl); cbn [map] in IH |- *.
        assert (Htrim : trim (blank +:+ piece) = trim piece).
        { clear -Hblank; unfold trim in *.
          induction blank as [|b blank IHb]; [reflexivity|].
          rewrite append_cons; simpl in Hblank |- *; revert Hblank.
          destruct (is_space b) eqn:Hb; [apply IHb|].
          intros H; exfalso; cbn [trimEnd] in H.
          destruct (trimEnd blank); [rewrite Hb in H|]; discriminate H. }
        rewrite Htrim; exact IH. }
    split; [apply (Hgen EmptyString) | apply (Hgen " ")]; reflexivity.
Qed.

Lemma SPEC_URLS_entries_witness :
  Forall (fun url => url <> EmptyString /\ mentions "," url = false /\ trimmed url)
         ["https://api.example.com/v1/spec.yaml"; "https://api.example.com/v2/spec.yaml"]
  /\ (SPEC_URLS (Some (join "," ["https://api.example.com/v1/spec.yaml";
                                   "https://api.example.com/v2/spec.yaml"])) =
        ["https://api.example.com/v1/spec.yaml"; "https://api.example.com/v2/spec.yaml"]
      /\ SPEC_URLS (Some (join ", " ["https://api.example.com/v1/spec.yaml";
                                      "https://api.example.com/v2/spec.yaml"])) =
        ["https://api.example.com/v1/spec.yaml"; "https://api.example.com/v2/spec.yaml"]).
Proof.
  assert (H : Forall (fun url => url <> EmptyString /\ mentions "," url = false /\ trimmed url)
                ["https://api.example.com/v1/spec.yaml";
                 "https://api.example.com/v2/spec.yaml"])
    by (repeat constructor; discriminate).
  split; [exact H|].
  apply (proj2 (proj2 (proj2 SPEC_URLS_entries)) _ H).
Defined.

Example SPEC_URLS_untidy :
  SPEC_URLS (Some " https://a.example/x.json ,, https://b.example/y.yaml,  ") =
  ["https://a.example/x.json"; "https://b.example/y.yaml"].
Proof. vm_compute; reflexivity. Qed.

(** ** The name of a spec loaded from a URL *)

(** [url.split('/').pop() || 'remote-spec'] *)
Definition remote_name (url : string) : string :=
  str_or (last (split "/" url)) "remote-spec".

Lemma split_snoc sep s piece :
  mentions sep piece = false ->
  exists pieces, split sep (s +:+ String sep piece) = pieces ++ [piece] /\ pieces <> [].
Proof.
  intros Hpiece; induction s as [|c s (pieces & E & Hne)].
  - exists [EmptyString]; split; [|discriminate].
    simpl; rewrite Ascii.eqb_refl, (split_piece _ _ Hpiece); reflexivity.
  - rewrite append_cons; simpl; rewrite E.
    destruct (Ascii.eqb c sep).
    + exists (EmptyString :: pieces); split; [reflexivity | discriminate].
    + destruct pieces as [|p ps]; [contradiction|].
      exists (String c p :: ps); split; [reflexivity | discriminate].
Qed.

Lemma last_split_mentions sep s piece :
  last (split sep s) = Some piece -> mentions sep piece = false.
Proof.
  intros H; apply (split_no_separator sep s).
  apply list_elem_of_lookup; exists (pred (length (split sep s))).
  rewrite <- H; symmetry; apply last_lookup.
Qed.

(** X17: the id given to a spec loaded from a URL is never empty and has no
    slash; it is the text after the last slash of the URL, and
    "remote-spec" when that text is empty, so two URLs that end in the
    same file name get the same id. *)
Theorem remote_name_last_segment :
  (forall url, remote_name url <> EmptyString /\ mentions "/" (remote_name url) = false)
  /\ (forall base file,
        file <> EmptyString -> mentions "/" file = false ->
        remote_name (base +:+ String "/" file) = file)
  /\ (forall base, remote_name (base +:+ "/") = "remote-spec")
  /\ remote_name EmptyString = "remote-spec".
Proof.
  refine (conj _ (conj _ (conj _ eq_refl))).
  - intros url; unfold remote_name.
    destruct (last (split "/" url)) as [piece|] eqn:Hlast; simpl; [|split; [discriminate|reflexivity]].
    destruct piece as [|c piece]; simpl; [split; [discriminate|reflexivity]|].
    split; [discriminate | exact (last_split_mentions _ _ _ Hlast)].
  - intros base file Hfile Hslash; unfold remote_name.
    destruct (split_snoc "/" base file Hslash) as (pieces & -> & _).
    rewrite last_snoc; destruct file; [contradiction | reflexivity].
  - intros base; unfold remote_name.
    destruct (split_snoc "/" base EmptyString eq_refl) as (pieces & -> & _).
    rewrite last_snoc; reflexivity.
Qed.

Lemma remote_name_last_segment_witness :
  "openapi.json" <> EmptyString /\ mentions "/" "openapi.json" = false /\
  remote_name ("https://api.example.com/v2" +:+ String "/" "openapi.json") = "openapi.json".
Proof.
  refine (conj _ (conj eq_refl _)); [discriminate|].
  apply (proj1 (proj2 remote_name_last_segment) "https://api.example.com/v2" "openapi.json");
    [discriminate | reflexivity].
Defined.

(** * Loading the registry

    The loading methods of [OpenAPIAnalyzer] are asynchronous and talk to
    the network, the parser and the file system.  They are embedded as
    functions from the fields of the analyzer to the fields afterwards,
    in a world ([World.t]) that says how each outside call ends; the
    [await]s run one after the other, so no interleaving is modelled, and
    the world answers the same throughout one load.  A rejected promise
    or a thrown error is the [None] or [inl] case, and each [try]/[catch]
    of the source is the match that handles it.  What the methods print
    with [console.error] is not modelled.  Registry documents are typed
    as the interface [ApiDiscovery] types them. *)

(** One entry of a registry document ([ApiDiscovery['apis'][0]]). *)
Module ApiInfo.
Record property : Type := Property {
  type : string;
  url : string
}.

Record t : Type := Build {
  name : string;
  baseURL : option string;
  version : option string;
  description : option string;
  properties : option (list property);
  spec_url : option string;
  docs_url : option string;
  status : option string;
  tags : option (list string)
}.
End ApiInfo.

(** A registry document; [apis] is [None] when the field is missing or is
    not an array. *)
Module ApiDiscovery.
Record t : Type := Build {
  name : option string;
  description : option string;
  url : option string;
  apis : option (list ApiInfo.t)
}.
End ApiDiscovery.

(** The [source] field of a loaded spec. *)
Module Source.
Inductive kind : Type := Local | Remote.
Record t : Type := Build {
  type : kind;
  url : option string;
  apiInfo : option ApiInfo.t
}.
End Source.

(** What lies outside the process: the network, the parser and the file
    system, each as the outcome it gives for an argument.  [None] and
    [inl] stand for a rejected promise. *)
Module World.

Inductive fs_error : Type :=
| ENOENT
| EACCES
| OtherError (message : string).

(** The result of [fetch]: the fields the source reads, and what
    [response.json()] resolves to as a registry ([None]: it rejects). *)
Record response : Type := Response {
  ok : bool;
  status : nat;
  statusText : string;
  json : option ApiDiscovery.t
}.

(** What [SwaggerParser.parse] resolves to: the document and its [info],
    [paths] and [components] as the interface [OpenAPISpec] types them. *)
Record document : Type := Document {
  spec : Record_any;
  info : option OpenAPIInfo.t;
  paths : option (list (string * PathItem));
  components : option Record_any
}.

Record t : Type := Build {
  fetch : string -> option response;
  parse : string -> option document;
  stat : string -> fs_error + bool;
  access : string -> option fs_error;
  readdir : string -> fs_error + list string;
  path_join : string -> string -> string
}.

End World.

Module Loader.

(** An element of [this.specs] with its [source]. *)
Record loaded : Type := Loaded {
  entry : OpenAPISpec.t;
  source : option Source.t
}.

(** The fields of the analyzer while it loads. *)
Record state : Type := State {
  specs : list loaded;
  loadedSources : list LoadSource.t;
  discoveryUrl : option string;
  specUrls : list string;
  specsFolder : option string
}.

(** The analyzer as the query methods see it. *)
Definition view (this : state) : Analyzer.state :=
  {| Analyzer.specs := map entry (specs this);
     Analyzer.loadedSources := loadedSources this;
     Analyzer.discoveryUrl := discoveryUrl this;
     Analyzer.specUrls := specUrls this;
     Analyzer.specsFolder := specsFolder this |}.

(** The environment variables the module reads. *)
Record env : Type := Env {
  OPENAPI_DISCOVERY_URL : option string;
  OPENAPI_SPEC_URLS : option string;
  OPENAPI_SPECS_FOLDER : option string
}.

(** The options of the constructor. *)
Record options : Type := Options {
  opt_discoveryUrl : option string;
  opt_specUrls : option (list string);
  opt_specsFolder : option string
}.

(** [a || b] on optional strings. *)
Definition or_string (a b : option string) : option string :=
  match a with
  | Some s => if nonempty s then a else b
  | None => b
  end.

(** [new OpenAPIAnalyzer(options)] *)
Definition constructor (e : env) (o : option options) : state :=
  {| specs := [];
     loadedSources := [];
     discoveryUrl := or_string (o ≫= opt_discoveryUrl) (OPENAPI_DISCOVERY_URL e);
     specUrls := default (SPEC_URLS (OPENAPI_SPEC_URLS e)) (o ≫= opt_specUrls);
     specsFolder := or_string (o ≫= opt_specsFolder) (OPENAPI_SPECS_FOLDER e) |}.

(** [validateConfiguration]: [true] when the process goes on, [false] when
    it exits with status 1. *)
Definition validateConfiguration (e : env) : bool :=
  negb (Server.missing (OPENAPI_DISCOVERY_URL e)
        && (length (SPEC_URLS (OPENAPI_SPEC_URLS e)) =? 0)%nat
        && Server.missing (OPENAPI_SPECS_FOLDER e)).

Definition push_spec (s : loaded) (this : state) : state :=
  {| specs := specs this ++ [s];
     loadedSources := loadedSources this;
     discoveryUrl := discoveryUrl this;
     specUrls := specUrls this;
     specsFolder := specsFolder this |}.

Definition push_source (s : LoadSource.t) (this : state) : state :=
  {| specs := specs this;
     loadedSources := loadedSources this ++ [s];
     discoveryUrl := discoveryUrl this;
     specUrls := specUrls this;
     specsFolder := specsFolder this |}.

Definition reset (this : state) : state :=
  {| specs := [];
     loadedSources := [];
     discoveryUrl := discoveryUrl this;
     specUrls := specUrls this;
     specsFolder := specsFolder this |}.

Section InWorld.
Variable w : World.t.

(** The URL of the spec of a registry entry: [spec_url] when it is set,
    else the [url] of the first property of type swagger or openapi. *)
Definition spec_url_of (apiInfo : ApiInfo.t) : option string :=
  if negb (Server.missing (ApiInfo.spec_url apiInfo)) then ApiInfo.spec_url apiInfo
  else match ApiInfo.properties apiInfo with
       | Some properties =>
           ApiInfo.url <$>
             List.find (fun p => String.eqb (toLowerCase (ApiInfo.type p)) "swagger"
                                 || String.eqb (toLowerCase (ApiInfo.type p)) "openapi")
                       properties
       | None => None
       end.

(** [loadSingleRemoteSpec]: every failure is caught and skips the entry. *)
Definition loadSingleRemoteSpec (apiInfo : ApiInfo.t) (this : state) : state :=
  let specUrl := spec_url_of apiInfo in
  if Server.missing specUrl then this
  else
    let specUrl := default "" specUrl in
    match World.fetch w specUrl with
    | None => this
    | Some response =>
        if negb (World.ok response) then this
        else match World.parse w specUrl with
             | None => this
             | Some spec =>
                 push_spec
                   {| entry :=
                        {| OpenAPISpec.filename := ApiInfo.name apiInfo;
                           OpenAPISpec.spec := World.spec spec;
                           OpenAPISpec.info := World.info spec;
                           OpenAPISpec.paths := World.paths spec;
                           OpenAPISpec.components := World.components spec |};
                      source :=
                        Some {| Source.type := Source.Remote;
                                Source.url := Some specUrl;
                                Source.apiInfo := Some apiInfo |} |}
                   this
             end
    end.

(** The [metadata] of a discovery source; fields that are [undefined]
    are left out, as JSON.stringify prints them. *)
Definition discovery_metadata (registry : ApiDiscovery.t) (apis : list ApiInfo.t) : json :=
  JObj (match ApiDiscovery.name registry with Some n => [("name", JStr n)] | None => [] end
        ++ match ApiDiscovery.description registry with
           | Some d => [("description", JStr d)]
           | None => []
           end
        ++ [("total_apis", JNum (Z.of_nat (length apis)))]).

(** [loadFromDiscoveryUrl], called when [this.discoveryUrl] is set. *)
Definition loadFromDiscoveryUrl (this : state) : state :=
  let url := default "" (discoveryUrl this) in
  match World.fetch w url with
  | None => this
  | Some response =>
      if negb (World.ok response) then this
      else match World.json response with
           | None => this
           | Some registry =>
               match ApiDiscovery.apis registry with
               | None => this
               | Some apis =>
                   let this := foldl (fun this apiInfo => loadSingleRemoteSpec apiInfo this)
                                     this apis in
                   push_source
                     {| LoadSource.type := LoadSource.Discovery;
                        LoadSource.url := Some url;
                        LoadSource.urls := None;
                        LoadSource.folder := None;
                        LoadSource.count := length (specs this);
                        LoadSource.metadata := Some (discovery_metadata registry apis) |}
                     this
               end
           end
  end.

(** The registry entry that [loadFromUrls] makes up for a URL. *)
Definition url_entry (url : string) : ApiInfo.t :=
  {| ApiInfo.name := remote_name url;
     ApiInfo.baseURL := None; ApiInfo.version := None; ApiInfo.description := None;
     ApiInfo.properties := None;
     ApiInfo.spec_url := Some url;
     ApiInfo.docs_url := None; ApiInfo.status := None; ApiInfo.tags := None |}.

(** [loadFromUrls] *)
Definition loadFromUrls (this : state) : state :=
  let this := foldl (fun this url => loadSingleRemoteSpec (url_entry url) this)
                    this (specUrls this) in
  push_source
    {| LoadSource.type := LoadSource.Urls;
       LoadSource.url := None;
       LoadSource.urls := Some (specUrls this);
       LoadSource.folder := None;
       LoadSource.count := length (specs this);
       LoadSource.metadata := None |}
    this.

(** What the [catch] of [validateLocalFolder] throws for an error. *)
Definition folder_error (folder : string) (e : World.fs_error) : string :=
  match e with
  | World.ENOENT => "OPENAPI_SPECS_FOLDER does not exist: " +:+ folder
  | World.EACCES => "No read permission for OPENAPI_SPECS_FOLDER: " +:+ folder
  | World.OtherError message => message
  end.

(** [validateLocalFolder]: the folder, or the message of the error thrown. *)
Definition validateLocalFolder (this : state) : string + string :=
  if Server.missing (specsFolder this) then inl "SPECS_FOLDER not configured"
  else
    let folder := default "" (specsFolder this) in
    match World.stat w folder with
    | inl e => inl (folder_error folder e)
    | inr isDirectory =>
        if negb isDirectory then inl ("OPENAPI_SPECS_FOLDER is not a directory: " +:+ folder)
        else match World.access w folder with
             | Some e => inl (folder_error folder e)
             | None => inr folder
             end
    end.

(** [file.endsWith(suffix)] *)
Definition endsWith (s suffix : string) : bool :=
  String.eqb (substring (String.length s - String.length suffix) (String.length suffix) s)
             suffix
  && (String.length suffix <=? String.length s)%nat.

Definition is_spec_file (file : string) : bool :=
  endsWith file ".json" || endsWith file ".yaml" || endsWith file ".yml".

(** [loadSingleLocalSpec] *)
Definition loadSingleLocalSpec (filename specsFolder : string) (this : state) : state :=
  let filePath := World.path_join w specsFolder filename in
  match World.parse w filePath with
  | None => this
  | Some spec =>
      push_spec
        {| entry :=
             {| OpenAPISpec.filename := filename;
                OpenAPISpec.spec := World.spec spec;
                OpenAPISpec.info := World.info spec;
                OpenAPISpec.paths := World.paths spec;
                OpenAPISpec.components := World.components spec |};
           source := Some {| Source.type := Source.Local;
                             Source.url := None;
                             Source.apiInfo := None |} |}
        this
  end.

(** [loadFromLocalFolder] *)
Definition loadFromLocalFolder (this : state) : state :=
  match validateLocalFolder this with
  | inl _ => this
  | inr validatedFolder =>
      match World.readdir w validatedFolder with
      | inl _ => this
      | inr files =>
          let specFiles := List.filter is_spec_file files in
          if (length specFiles =? 0)%nat then this
          else
            let this := foldl (fun this file => loadSingleLocalSpec file validatedFolder this)
                              this specFiles in
            push_source
              {| LoadSource.type := LoadSource.Folder;
                 LoadSource.url := None;
                 LoadSource.urls := None;
                 LoadSource.folder := Some validatedFolder;
                 LoadSource.count := length (specs this);
                 LoadSource.metadata := None |}
              this
      end
  end.

(** [loadSpecs] *)
Definition loadSpecs (this : state) : state :=
  let this := reset this in
  let this := if negb (Server.missing (discoveryUrl this)) then loadFromDiscoveryUrl this
              else this in
  let this := if (0 <? length (specUrls this))%nat then loadFromUrls this else this in
  if negb (Server.missing (specsFolder this)) then loadFromLocalFolder this else this.

End InWorld.
End Loader.

(** ** What a load leaves in the registry *)

Section Loading.
Import Loader.
Variable w : World.t.

(** The spec that a registry entry yields, if its URL resolves, the fetch
    succeeds with an ok status and the parser accepts the document. *)
Definition remote_spec (apiInfo : ApiInfo.t) : option loaded :=
  match spec_url_of apiInfo with
  | Some specUrl =>
      if nonempty specUrl then
        match World.fetch w specUrl with
        | Some response =>
            if World.ok response then
              match World.parse w specUrl with
              | Some spec =>
                  Some {| entry :=
                            {| OpenAPISpec.filename := ApiInfo.name apiInfo;
                               OpenAPISpec.spec := World.spec spec;
                               OpenAPISpec.info := World.info spec;
                               OpenAPISpec.paths := World.paths spec;
                               OpenAPISpec.components := World.components spec |};
                          source :=
                            Some {| Source.type := Source.Remote;
                                    Source.url := Some specUrl;
                                    Source.apiInfo := Some apiInfo |} |}
              | None => None
              end
            else None
        | None => None
        end
      else None
  | None => None
  end.

(** The spec that a file of the folder yields, if the parser accepts it. *)
Definition local_spec (folder file : string) : option loaded :=
  match World.parse w (World.path_join w folder file) with
  | Some spec =>
      Some {| entry :=
                {| OpenAPISpec.filename := file;
                   OpenAPISpec.spec := World.spec spec;
                   OpenAPISpec.info := World.info spec;
                   OpenAPISpec.paths := World.paths spec;
                   OpenAPISpec.components := World.components spec |};
              source := Some {| Source.type := Source.Local;
                                Source.url := None;
                                Source.apiInfo := None |} |}
  | None => None
  end.

(** The registry entries behind the discovery URL: none unless the fetch
    succeeds with an ok status and the body is a registry with an [apis]
    array. *)
Definition discovered (url : string) : option (list ApiInfo.t) :=
  match World.fetch w url with
  | Some response =>
      if World.ok response then World.json response ≫= ApiDiscovery.apis else None
  | None => None
  end.

(** The spec files of the folder: none unless the folder is a readable
    directory that can be listed. *)
Definition listed (folder : string) : list string :=
  match World.stat w folder, World.access w folder, World.readdir w folder with
  | inr true, None, inr files => List.filter is_spec_file files
  | _, _, _ => []
  end.

Definition from_discovery (this : state) : list loaded :=
  match discoveryUrl this with
  | Some url => if nonempty url then omap remote_spec (default [] (discovered url)) else []
  | None => []
  end.

Definition from_urls (this : state) : list loaded :=
  omap (fun url => remote_spec (url_entry url)) (specUrls this).

Definition from_folder (this : state) : list loaded :=
  match specsFolder this with
  | Some folder => if nonempty folder then omap (local_spec folder) (listed folder) else []
  | None => []
  end.

(** The settings of the analyzer, which loading never changes. *)
Definition same_settings (a b : state) : Prop :=
  discoveryUrl a = discoveryUrl b /\ specUrls a = specUrls b /\ specsFolder a = specsFolder b.

Lemma loadSingleRemoteSpec_push apiInfo this :
  loadSingleRemoteSpec w apiInfo this =
  match remote_spec apiInfo with
  | Some s => push_spec s this
  | None => this
  end.
Proof.
  unfold loadSingleRemoteSpec, remote_spec.
  destruct (spec_url_of apiInfo) as [[|c url]|]; simpl; try reflexivity.
  destruct (World.fetch w (String c url)) as [response|]; [|reflexivity].
  destruct (World.ok response); simpl; [|reflexivity].
  destruct (World.parse w (String c url)); reflexivity.
Qed.

Lemma foldl_push_spec {A} (f : A -> option loaded) (l : list A) this :
  foldl (fun this x => match f x with Some s => push_spec s this | None => this end) this l =
  {| specs := specs this ++ omap f l;
     loadedSources := loadedSources this;
     discoveryUrl := discoveryUrl this;
     specUrls := specUrls this;
     specsFolder := specsFolder this |}.
Proof.
  revert this; induction l as [|x l IH]; intros this.
  - destruct this; simpl; rewrite app_nil_r; reflexivity.
  - simpl foldl; rewrite IH; simpl omap.
    destruct (f x) as [s|]; [|reflexivity].
    unfold push_spec; simpl; rewrite <- app_assoc; reflexivity.
Qed.

Lemma foldl_remote (l : list ApiInfo.t) this :
  foldl (fun this apiInfo => loadSingleRemoteSpec w apiInfo this) this l =
  {| specs := specs this ++ omap remote_spec l;
     loadedSources := loadedSources this;
     discoveryUrl := discoveryUrl this;
     specUrls := specUrls this;
     specsFolder := specsFolder this |}.
Proof.
  rewrite <- foldl_push_spec; apply foldl_ext_eq; intros; apply loadSingleRemoteSpec_push.
Qed.

Lemma foldl_remote_urls (l : list string) this :
  foldl (fun this url => loadSingleRemoteSpec w (url_entry url) this) this l =
  {| specs := specs this ++ omap (fun url => remote_spec (url_entry url)) l;
     loadedSources := loadedSources this;
     discoveryUrl := discoveryUrl this;
     specUrls := specUrls this;
     specsFolder := specsFolder this |}.
Proof.
  rewrite <- (foldl_push_spec (fun url => remote_spec (url_entry url))).
  apply foldl_ext_eq; intros; apply loadSingleRemoteSpec_push.
Qed.

Lemma foldl_local folder (l : list string) this :
  foldl (fun this file => loadSingleLocalSpec w file folder this) this l =
  {| specs := specs this ++ omap (local_spec folder) l;
     loadedSources := loadedSources this;
     discoveryUrl := discoveryUrl this;
     specUrls := specUrls this;
     specsFolder := specsFolder this |}.
Proof.
  rewrite <- foldl_push_spec; apply foldl_ext_eq; intros a file.
  unfold loadSingleLocalSpec, local_spec.
  destruct (World.parse w (World.path_join w folder file)); reflexivity.
Qed.

(** The kinds of source that each step of [loadSpecs] records. *)
Definition recorded_discovery (this : state) : list LoadSource.kind :=
  match discoveryUrl this with
  | Some url =>
      if nonempty url
      then match discovered url with Some _ => [LoadSource.Discovery] | None => [] end
      else []
  | None => []
  end.

Definition recorded_urls (this : state) : list LoadSource.kind :=
  match specUrls this with
  | [] => []
  | _ :: _ => [LoadSource.Urls]
  end.

Definition recorded_folder (this : state) : list LoadSource.kind :=
  match specsFolder this with
  | Some folder =>
      if nonempty folder
      then match listed folder with [] => [] | _ :: _ => [LoadSource.Folder] end
      else []
  | None => []
  end.

(** One step of [loadSpecs]: it appends specs and records at most one
    source, whose count is the size of the registry at that moment. *)
Definition loads (kinds : list LoadSource.kind) (new : list loaded) (this this' : state) : Prop :=
  same_settings this this'
  /\ specs this' = specs this ++ new
  /\ exists srcs, loadedSources this' = loadedSources this ++ srcs
                  /\ map LoadSource.type srcs = kinds
                  /\ Forall (fun src => LoadSource.count src = length (specs this')) srcs
                  /\ (srcs = [] -> new = [])
                  /\ length srcs <= 1.

Lemma loads_nothing this : loads [] [] this this.
Proof.
  unfold loads, same_settings; rewrite app_nil_r.
  split; [auto|]. split; [reflexivity|]. exists [].
  rewrite app_nil_r; simpl; repeat split; auto.
Qed.

Lemma loads_one src new this this' :
  same_settings this this' ->
  specs this' = specs this ++ new ->
  loadedSources this' = loadedSources this ++ [src] ->
  LoadSource.count src = length (specs this') ->
  loads [LoadSource.type src] new this this'.
Proof.
  intros Hs Hspecs Hsrc Hc; split; [exact Hs|]; split; [exact Hspecs|].
  exists [src]; split; [exact Hsrc|]; split; [reflexivity|].
  split; [repeat constructor; exact Hc|]. split; [discriminate | simpl; lia].
Qed.

Lemma loadFromDiscoveryUrl_loads this :
  Server.missing (discoveryUrl this) = false ->
  loads (recorded_discovery this) (from_discovery this) this (loadFromDiscoveryUrl w this).
Proof.
  unfold loadFromDiscoveryUrl, from_discovery, recorded_discovery, discovered.
  destruct (discoveryUrl this) as [[|c url]|] eqn:Hurl; try discriminate; intros _; simpl.
  destruct (World.fetch w (String c url)) as [response|]; [|apply loads_nothing].
  destruct (World.ok response); simpl; [|apply loads_nothing].
  destruct (World.json response) as [registry|]; simpl; [|apply loads_nothing].
  destruct (ApiDiscovery.apis registry) as [apis|]; simpl; [|apply loads_nothing].
  rewrite foldl_remote.
  match goal with |- loads _ _ _ (push_source ?src _) => apply (loads_one src) end;
    unfold same_settings; simpl; auto.
Qed.

Lemma loadFromUrls_loads this :
  specUrls this <> [] ->
  loads (recorded_urls this) (from_urls this) this (loadFromUrls w this).
Proof.
  unfold loadFromUrls, from_urls, recorded_urls; rewrite foldl_remote_urls.
  destruct (specUrls this) as [|url urls] eqn:Hurls; [congruence|]; intros _.
  match goal with |- loads _ _ _ (push_source ?src _) => apply (loads_one src) end;
    unfold same_settings; simpl; auto.
Qed.

Lemma loadFromLocalFolder_loads this :
  Server.missing (specsFolder this) = false ->
  loads (recorded_folder this) (from_folder this) this (loadFromLocalFolder w this).
Proof.
  unfold loadFromLocalFolder, validateLocalFolder, from_folder, recorded_folder, listed.
  destruct (specsFolder this) as [[|c folder]|] eqn:Hfolder; try discriminate; intros _; simpl.
  destruct (World.stat w (String c folder)) as [e|[|]]; simpl; try apply loads_nothing.
  destruct (World.access w (String c folder)) as [e|]; simpl; [apply loads_nothing|].
  destruct (World.readdir w (String c folder)) as [e|files]; [apply loads_nothing|].
  generalize (List.filter is_spec_file files); intros [|file specFiles];
    [apply loads_nothing|].
  change (length (file :: specFiles) =? 0)%nat with false; cbv iota.
  rewrite foldl_local.
  match goal with |- loads _ _ _ (push_source ?src _) => apply (loads_one src) end;
    unfold same_settings; simpl; auto.
Qed.

Lemma from_settings a b :
  same_settings a b ->
  (from_discovery a = from_discovery b
   /\ from_urls a = from_urls b
   /\ from_folder a = from_folder b)
  /\ (recorded_discovery a = recorded_discovery b
      /\ recorded_urls a = recorded_urls b
      /\ recorded_folder a = recorded_folder b).
Proof.
  intros (Hd & Hu & Hf).
  unfold from_discovery, from_urls, from_folder,
    recorded_discovery, recorded_urls, recorded_folder.
  rewrite Hd, Hu, Hf; auto 10.
Qed.

Lemma same_settings_trans a b c :
  same_settings a b -> same_settings b c -> same_settings a c.
Proof.
  intros (? & ? & ?) (? & ? & ?); unfold same_settings; split; [|split]; congruence.
Qed.

(** The three steps of [loadSpecs], one after the other. *)
Lemma loadSpecs_steps this :
  exists a b,
    loads (recorded_discovery this) (from_discovery this) (reset this) a
    /\ loads (recorded_urls this) (from_urls this) a b
    /\ loads (recorded_folder this) (from_folder this) b (loadSpecs w this).
Proof.
  unfold loadSpecs.
  set (s0 := reset this).
  assert (H0 : same_settings this s0) by (unfold same_settings; auto).
  set (a := if negb (Server.missing (discoveryUrl s0))
            then loadFromDiscoveryUrl w s0 else s0).
  assert (Ha : loads (recorded_discovery this) (from_discovery this) s0 a).
  { destruct (from_settings _ _ H0) as ((-> & _ & _) & (-> & _ & _)); subst a.
    destruct (Server.missing (discoveryUrl s0)) eqn:Hm; simpl.
    - replace (from_discovery s0) with (@nil loaded);
        [replace (recorded_discovery s0) with (@nil LoadSource.kind);
           [apply loads_nothing|] |];
        unfold from_discovery, recorded_discovery;
        destruct (discoveryUrl s0) as [[|]|]; try reflexivity; discriminate.
    - apply loadFromDiscoveryUrl_loads, Hm. }
  assert (H1 : same_settings this a) by (eapply same_settings_trans; [exact H0 | apply Ha]).
  set (b := if (0 <? length (specUrls a))%nat then loadFromUrls w a else a).
  assert (Hb : loads (recorded_urls this) (from_urls this) a b).
  { destruct (from_settings _ _ H1) as ((_ & -> & _) & (_ & -> & _)); subst b.
    destruct (specUrls a) as [|url urls] eqn:Hurls.
    - simpl; replace (from_urls a) with (@nil loaded);
        [replace (recorded_urls a) with (@nil LoadSource.kind); [apply loads_nothing|] |];
        unfold from_urls, recorded_urls; rewrite Hurls; reflexivity.
    - simpl; apply loadFromUrls_loads; rewrite Hurls; discriminate. }
  assert (H2 : same_settings this b) by (eapply same_settings_trans; [exact H1 | apply Hb]).
  exists a, b; split; [exact Ha|]; split; [exact Hb|].
  destruct (from_settings _ _ H2) as ((_ & _ & ->) & (_ & _ & ->)).
  destruct (Server.missing (specsFolder b)) eqn:Hm; simpl.
  - replace (from_folder b) with (@nil loaded);
      [replace (recorded_folder b) with (@nil LoadSource.kind); [apply loads_nothing|] |];
      unfold from_folder, recorded_folder;
      destruct (specsFolder b) as [[|]|]; try reflexivity; discriminate.
  - apply loadFromLocalFolder_loads, Hm.
Qed.

Lemma loadSpecs_specs this :
  specs (loadSpecs w this) = from_discovery this ++ from_urls this ++ from_folder this.
Proof.
  destruct (loadSpecs_steps this) as (a & b & (_ & Ea & _) & (_ & Eb & _) & (_ & Ec & _)).
  rewrite Ec, Eb, Ea, <- app_assoc; reflexivity.
Qed.

Lemma loadSpecs_same_settings this : same_settings this (loadSpecs w this).
Proof.
  destruct (loadSpecs_steps this) as (a & b & (Sa & _) & (Sb & _) & (Sc & _)).
  apply (same_settings_trans _ (reset this)); [unfold same_settings; auto|].
  apply (same_settings_trans _ a); [exact Sa|].
  apply (same_settings_trans _ b); [exact Sb | exact Sc].
Qed.

Lemma loadSpecs_settings_only a b :
  same_settings a b -> loadSpecs w a = loadSpecs w b.
Proof.
  intros (Hd & Hu & Hf); unfold loadSpecs.
  replace (reset a) with (reset b); [reflexivity|].
  unfold reset; rewrite Hd, Hu, Hf; reflexivity.
Qed.

Lemma StronglySorted_snoc {A} (R : relation A) (l : list A) (x : A) :
  StronglySorted R l -> Forall (fun y => R y x) l -> StronglySorted R (l ++ [x]).
Proof.
  induction 1 as [|y l Hl IH Hy]; intros Hall; simpl.
  - repeat constructor.
  - inversion Hall as [|? ? Hyx Hrest]; subst; constructor; [apply IH, Hrest|].
    apply Forall_app; split; [exact Hy | repeat constructor; exact Hyx].
Qed.

(** The record of sources while [loadSpecs] runs. *)
Definition sources_consistent (kinds : list LoadSource.kind) (this : state) : Prop :=
  map LoadSource.type (loadedSources this) = kinds
  /\ StronglySorted le (map LoadSource.count (loadedSources this))
  /\ Forall (fun src => LoadSource.count src <= length (specs this)) (loadedSources this)
  /\ match last (loadedSources this) with
     | Some src => LoadSource.count src = length (specs this)
     | None => specs this = []
     end.

Lemma sources_consistent_loads kinds more new this this' :
  sources_consistent kinds this -> loads more new this this' ->
  sources_consistent (kinds ++ more) this'.
Proof.
  intros (Hkinds & Hsorted & Hbound & Hlast)
         (_ & Hspecs & srcs & Hsrc & Hk & Hc & Hnew & Hlen).
  destruct srcs as [|src [|src' srcs]]; [| |simpl in Hlen; lia].
  - rewrite (Hnew eq_refl), app_nil_r in Hspecs; rewrite app_nil_r in Hsrc.
    unfold sources_consistent; rewrite Hsrc, Hspecs, <- Hk, app_nil_r; auto.
  - inversion Hc as [|? ? Hcount _]; subst.
    unfold sources_consistent; rewrite Hsrc, !map_app, last_snoc; simpl map.
    assert (Hle : Forall (fun s => LoadSource.count s <= length (specs this'))
                         (loadedSources this)).
    { eapply Forall_impl; [exact Hbound|]; intros s Hs; simpl in Hs.
      rewrite Hspecs, length_app; lia. }
    refine (conj eq_refl (conj _ (conj _ Hcount))).
    + apply StronglySorted_snoc; [exact Hsorted|].
      rewrite Hcount; apply Forall_forall; intros n Hn.
      change (map LoadSource.count) with (fmap (M := list) LoadSource.count) in Hn.
      apply list_elem_of_fmap in Hn as (s & -> & Hs).
      exact (proj1 (Forall_forall _ _) Hle s Hs).
    + apply Forall_app; split; [exact Hle | repeat constructor; lia].
Qed.

Lemma loadSpecs_consistent this :
  sources_consistent (recorded_discovery this ++ recorded_urls this ++ recorded_folder this)
                     (loadSpecs w this).
Proof.
  destruct (loadSpecs_steps this) as (a & b & Ha & Hb & Hc).
  assert (H0 : sources_consistent [] (reset this)).
  { unfold sources_consistent; simpl; repeat split; constructor. }
  rewrite app_assoc.
  apply (sources_consistent_loads _ _ _ _ _ (sources_consistent_loads _ _ _ _ _
           (sources_consistent_loads _ _ _ _ _ H0 Ha) Hb) Hc).
Qed.

End Loading.

(** X18: after [loadSpecs] the registry holds the specs obtained from the
    discovery URL, then those from the URL list, then those from the
    folder, and nothing of what it held before; a source that fails
    contributes nothing and does not stop the others; the settings are
    unchanged, and loading again in an unchanged world gives the same
    analyzer. *)
Theorem loadSpecs_registry w this :
  Loader.specs (Loader.loadSpecs w this) =
    from_discovery w this ++ from_urls w this ++ from_folder w this
  /\ same_settings this (Loader.loadSpecs w this)
  /\ Analyzer.specs (Loader.view (Loader.loadSpecs w this)) =
     map Loader.entry (from_discovery w this ++ from_urls w this ++ from_folder w this)
  /\ Loader.loadSpecs w (Loader.loadSpecs w this) = Loader.loadSpecs w this.
Proof.
  refine (conj (loadSpecs_specs w this) (conj (loadSpecs_same_settings w this) (conj _ _))).
  - unfold Loader.view; simpl; rewrite loadSpecs_specs; reflexivity.
  - apply loadSpecs_settings_only.
    destruct (loadSpecs_same_settings w this) as (? & ? & ?); unfold same_settings; auto.
Qed.

(** X19: [loadSpecs] records at most one source of each kind, in the order
    discovery, urls, folder; the recorded counts are running totals of the
    registry: they never decrease, none exceeds the final number of
    specs, and the count of the last recorded source is the final number
    of specs (when no source is recorded the registry is empty). *)
Theorem loadSpecs_sources w this :
  map LoadSource.type (Loader.loadedSources (Loader.loadSpecs w this))
    `sublist_of` [LoadSource.Discovery; LoadSource.Urls; LoadSource.Folder]
  /\ StronglySorted le (map LoadSource.count (Loader.loadedSources (Loader.loadSpecs w this)))
  /\ Forall (fun src => LoadSource.count src <= length (Loader.specs (Loader.loadSpecs w this)))
            (Loader.loadedSources (Loader.loadSpecs w this))
  /\ match last (Loader.loadedSources (Loader.loadSpecs w this)) with
     | Some src => LoadSource.count src = length (Loader.specs (Loader.loadSpecs w this))
     | None => Loader.specs (Loader.loadSpecs w this) = []
     end.
Proof.
  destruct (loadSpecs_consistent w this) as (Hkinds & Hrest).
  split; [|exact Hrest].
  rewrite Hkinds.
  change [LoadSource.Discovery; LoadSource.Urls; LoadSource.Folder]
    with ([LoadSource.Discovery] ++ [LoadSource.Urls] ++ [LoadSource.Folder]).
  repeat apply sublist_app.
  - unfold recorded_discovery.
    destruct (Loader.discoveryUrl this) as [url|]; [|apply sublist_nil_l].
    destruct (nonempty url); [|apply sublist_nil_l].
    destruct (discovered w url); [reflexivity | apply sublist_nil_l].
  - unfold recorded_urls.
    destruct (Loader.specUrls this); [apply sublist_nil_l | reflexivity].
  - unfold recorded_folder.
    destruct (Loader.specsFolder this) as [folder|]; [|apply sublist_nil_l].
    destruct (nonempty folder); [|apply sublist_nil_l].
    destruct (listed w folder); [apply sublist_nil_l | reflexivity].
Qed.

(** X20: which sources [loadSpecs] records.  The discovery source is
    recorded exactly when a discovery URL is set and yields a registry
    with an [apis] array, whether or not any entry of it loads; the urls
    source exactly when the URL list is not empty, even if every URL
    fails; the folder source exactly when the folder is set, is a
    readable directory and lists at least one file with a spec
    extension. *)
Theorem loadSpecs_recorded_sources w this :
  let kinds := map LoadSource.type (Loader.loadedSources (Loader.loadSpecs w this)) in
  (LoadSource.Discovery ∈ kinds <->
     exists url, Loader.discoveryUrl this = Some url /\ url <> ""
                 /\ is_Some (discovered w url))
  /\ (LoadSource.Urls ∈ kinds <-> Loader.specUrls this <> [])
  /\ (LoadSource.Folder ∈ kinds <->
        exists folder, Loader.specsFolder this = Some folder /\ folder <> ""
                       /\ listed w folder <> []).
Proof.
  intros kinds; subst kinds.
  destruct (loadSpecs_consistent w this) as (-> & _).
  assert (Hd : forall k, k ∈ recorded_discovery w this ->
                 k = LoadSource.Discovery
                 /\ exists url, Loader.discoveryUrl this = Some url /\ url <> ""
                                /\ is_Some (discovered w url)).
  { intros k; unfold recorded_discovery.
    destruct (Loader.discoveryUrl this) as [[|c url]|]; simpl;
      try (intros H; apply elem_of_nil in H; contradiction).
    destruct (discovered w (String c url)) eqn:E;
      [|intros H; apply elem_of_nil in H; contradiction].
    intros H; apply list_elem_of_singleton in H; split; [exact H|].
    exists (String c url); rewrite E; split; [reflexivity|]; split; [discriminate | eauto]. }
  assert (Hu : forall k, k ∈ recorded_urls this ->
                 k = LoadSource.Urls /\ Loader.specUrls this <> []).
  { intros k; unfold recorded_urls.
    destruct (Loader.specUrls this);
      [intros H; apply elem_of_nil in H; contradiction|].
    intros H; apply list_elem_of_singleton in H; split; [exact H | discriminate]. }
  assert (Hf : forall k, k ∈ recorded_folder w this ->
                 k = LoadSource.Folder
                 /\ exists folder, Loader.specsFolder this = Some folder /\ folder <> ""
                                   /\ listed w folder <> []).
  { intros k; unfold recorded_folder.
    destruct (Loader.specsFolder this) as [[|c folder]|]; simpl;
      try (intros H; apply elem_of_nil in H; contradiction).
    destruct (listed w (String c folder)) eqn:E;
      [intros H; apply elem_of_nil in H; contradiction|].
    intros H; apply list_elem_of_singleton in H; split; [exact H|].
    exists (String c folder); rewrite E; split; [reflexivity|]; split; discriminate. }
  rewrite !elem_of_app.
  refine (conj _ (conj _ _)); split.
  - intros [H|[H|H]]; [apply Hd in H as (_ & H); exact H
                      | apply Hu in H as (H & _); discriminate H
                      | apply Hf in H as (H & _); discriminate H].
  - intros (url & E & Hne & Hsome); left; unfold recorded_discovery; rewrite E.
    destruct url; [congruence|]; simpl.
    destruct Hsome as (apis & ->); apply list_elem_of_here.
  - intros [H|[H|H]]; [apply Hd in H as (H & _); discriminate H
                      | apply Hu in H as (_ & H); exact H
                      | apply Hf in H as (H & _); discriminate H].
  - intros Hne; right; left; unfold recorded_urls.
    destruct (Loader.specUrls this); [congruence | apply list_elem_of_here].
  - intros [H|[H|H]]; [apply Hd in H as (H & _); discriminate H
                      | apply Hu in H as (H & _); discriminate H
                      | apply Hf in H as (_ & H); exact H].
  - intros (folder & E & Hne & Hfiles); right; right; unfold recorded_folder; rewrite E.
    destruct folder; [congruence|]; simpl.
    destruct (listed w (String a folder)); [congruence | apply list_elem_of_here].
Qed.

(** ** The files of the folder *)

Lemma substring_whole s : substring 0 (String.length s) s = s.
Proof. induction s as [|c s IH]; simpl; [reflexivity | rewrite IH; reflexivity]. Qed.

Lemma substring_cut s k :
  k <= String.length s ->
  s = substring 0 k s +:+ substring k (String.length s - k) s.
Proof.
  revert k; induction s as [|c s IH]; intros [|k] Hk; simpl in Hk; try lia.
  - reflexivity.
  - rewrite Nat.sub_0_r, substring_whole; reflexivity.
  - simpl; rewrite append_cons; f_equal; apply IH; lia.
Qed.

Lemma length_append_sum a b :
  String.length (a +:+ b) = String.length a + String.length b.
Proof. induction a as [|c a IH]; [reflexivity|]. rewrite append_cons; simpl; rewrite IH; reflexivity. Qed.

Lemma substring_suffix a b :
  substring (String.length a) (String.length b) (a +:+ b) = b.
Proof.
  induction a as [|c a IH]; [apply substring_whole|].
  rewrite append_cons; simpl; exact IH.
Qed.

Lemma endsWith_suffix s suffix :
  Loader.endsWith s suffix = true <-> exists stem, s = stem +:+ suffix.
Proof.
  unfold Loader.endsWith; rewrite andb_true_iff, String.eqb_eq, Nat.leb_le; split.
  - intros (Hsub & Hle).
    exists (substring 0 (String.length s - String.length suffix) s).
    rewrite (substring_cut s (String.length s - String.length suffix)) at 1 by lia.
    replace (String.length s - (String.length s - String.length suffix))
      with (String.length suffix) by lia.
    rewrite Hsub; reflexivity.
  - intros (stem & ->); rewrite length_append_sum.
    replace (String.length stem + String.length suffix - String.length suffix)
      with (String.length stem) by lia.
    split; [apply substring_suffix | lia].
Qed.

(** A file name that ends in one of the three extensions. *)
Definition has_spec_extension (file : string) : Prop :=
  exists stem ext, ext ∈ [".json"; ".yaml"; ".yml"] /\ file = stem +:+ ext.

Lemma is_spec_file_extension file :
  Loader.is_spec_file file = true <-> has_spec_extension file.
Proof.
  unfold Loader.is_spec_file, has_spec_extension.
  rewrite !orb_true_iff, !endsWith_suffix; split.
  - intros [[(stem & E)|(stem & E)]|(stem & E)]; exists stem; eexists; (split; [|exact E]).
    + apply list_elem_of_here.
    + apply list_elem_of_further, list_elem_of_here.
    + do 2 apply list_elem_of_further; apply list_elem_of_here.
  - intros (stem & ext & Hext & E).
    repeat (apply elem_of_cons in Hext as [->|Hext]; [eauto|]).
    apply elem_of_nil in Hext; contradiction.
Qed.

(** A spec whose [source] is of type local. *)
Definition is_local (s : Loader.loaded) : bool :=
  match Loader.source s with
  | Some src => match Source.type src with Source.Local => true | Source.Remote => false end
  | None => false
  end.

Lemma remote_spec_inv w apiInfo s :
  remote_spec w apiInfo = Some s ->
  exists specUrl response spec,
    Loader.spec_url_of apiInfo = Some specUrl /\ specUrl <> ""
    /\ World.fetch w specUrl = Some response /\ World.ok response = true
    /\ World.parse w specUrl = Some spec
    /\ Loader.entry s =
         {| OpenAPISpec.filename := ApiInfo.name apiInfo;
            OpenAPISpec.spec := World.spec spec;
            OpenAPISpec.info := World.info spec;
            OpenAPISpec.paths := World.paths spec;
            OpenAPISpec.components := World.components spec |}
    /\ Loader.source s = Some {| Source.type := Source.Remote;
                                 Source.url := Some specUrl;
                                 Source.apiInfo := Some apiInfo |}.
Proof.
  unfold remote_spec.
  destruct (Loader.spec_url_of apiInfo) as [[|c url]|]; simpl; try discriminate.
  destruct (World.fetch w (String c url)) as [response|] eqn:Hfetch; [|discriminate].
  destruct (World.ok response) eqn:Hok; [|discriminate].
  destruct (World.parse w (String c url)) as [spec|] eqn:Hparse; [|discriminate].
  intros [= <-]; exists (String c url), response, spec; simpl.
  repeat split; auto; discriminate.
Qed.

Lemma local_spec_inv w folder file s :
  local_spec w folder file = Some s ->
  exists spec,
    World.parse w (World.path_join w folder file) = Some spec
    /\ Loader.entry s =
         {| OpenAPISpec.filename := file;
            OpenAPISpec.spec := World.spec spec;
            OpenAPISpec.info := World.info spec;
            OpenAPISpec.paths := World.paths spec;
            OpenAPISpec.components := World.components spec |}
    /\ Loader.source s = Some {| Source.type := Source.Local;
                                 Source.url := None;
                                 Source.apiInfo := None |}.
Proof.
  unfold local_spec.
  destruct (World.parse w (World.path_join w folder file)) as [spec|]; [|discriminate].
  intros [= <-]; exists spec; auto.
Qed.

Lemma from_discovery_remote w this s :
  s ∈ from_discovery w this ->
  exists url apis apiInfo,
    Loader.discoveryUrl this = Some url /\ discovered w url = Some apis
    /\ apiInfo ∈ apis /\ remote_spec w apiInfo = Some s.
Proof.
  unfold from_discovery.
  destruct (Loader.discoveryUrl this) as [url|];
    [|intros H; apply elem_of_nil in H; contradiction].
  destruct (nonempty url); [|intros H; apply elem_of_nil in H; contradiction].
  destruct (discovered w url) as [apis|] eqn:Hapis; simpl;
    [|intros H; apply elem_of_nil in H; contradiction].
  intros H; apply list_elem_of_omap in H as (apiInfo & Hin & E).
  exists url, apis, apiInfo; repeat split; auto.
Qed.

Lemma from_urls_remote w this s :
  s ∈ from_urls w this ->
  exists url, url ∈ Loader.specUrls this /\ remote_spec w (Loader.url_entry url) = Some s.
Proof.
  unfold from_urls; intros H; apply list_elem_of_omap in H as (url & Hin & E); eauto.
Qed.

Lemma filter_all {A} (f : A -> bool) (l : list A) :
  (forall x, x ∈ l -> f x = true) -> List.filter f l = l.
Proof.
  induction l as [|x l IH]; intros H; simpl; [reflexivity|].
  rewrite (H x (list_elem_of_here _ _)), IH; [reflexivity|].
  intros y Hy; apply H, list_elem_of_further, Hy.
Qed.

Lemma filter_none {A} (f : A -> bool) (l : list A) :
  (forall x, x ∈ l -> f x = false) -> List.filter f l = [].
Proof.
  induction l as [|x l IH]; intros H; simpl; [reflexivity|].
  rewrite (H x (list_elem_of_here _ _)); apply IH.
  intros y Hy; apply H, list_elem_of_further, Hy.
Qed.

Lemma from_folder_inv w this s :
  s ∈ from_folder w this ->
  exists folder file,
    Loader.specsFolder this = Some folder /\ folder <> ""
    /\ file ∈ listed w folder /\ local_spec w folder file = Some s.
Proof.
  unfold from_folder.
  destruct (Loader.specsFolder this) as [[|c folder]|]; simpl;
    try (intros H; apply elem_of_nil in H; contradiction).
  intros H; apply list_elem_of_omap in H as (file & Hin & E).
  exists (String c folder), file; repeat split; auto; discriminate.
Qed.

(** The local specs of the registry are those that came from the folder. *)
Lemma loadSpecs_local w this :
  List.filter is_local (Loader.specs (Loader.loadSpecs w this)) = from_folder w this.
Proof.
  rewrite loadSpecs_specs, !List.filter_app.
  rewrite (filter_none is_local (from_discovery w this)),
          (filter_none is_local (from_urls w this)),
          (filter_all is_local (from_folder w this)); [reflexivity| | |].
  - intros s H; apply from_folder_inv in H as (folder & file & _ & _ & _ & E).
    apply local_spec_inv in E as (spec & _ & _ & E); unfold is_local; rewrite E; reflexivity.
  - intros s H; apply from_urls_remote in H as (url & _ & E).
    apply remote_spec_inv in E as (u & r & d & _ & _ & _ & _ & _ & _ & E).
    unfold is_local; rewrite E; reflexivity.
  - intros s H; apply from_discovery_remote in H as (url & apis & apiInfo & _ & _ & _ & E).
    apply remote_spec_inv in E as (u & r & d & _ & _ & _ & _ & _ & _ & E).
    unfold is_local; rewrite E; reflexivity.
Qed.

Lemma listed_inv w folder file :
  file ∈ listed w folder <->
  World.stat w folder = inr true /\ World.access w folder = None
  /\ exists files, World.readdir w folder = inr files /\ file ∈ files
                   /\ has_spec_extension file.
Proof.
  unfold listed.
  destruct (World.stat w folder) as [e|[|]];
    try (split; [intros H; apply elem_of_nil in H; contradiction
                | intros (? & _); discriminate]).
  destruct (World.access w folder) as [e|];
    try (split; [intros H; apply elem_of_nil in H; contradiction
                | intros (_ & ? & _); discriminate]).
  destruct (World.readdir w folder) as [e|files];
    try (split; [intros H; apply elem_of_nil in H; contradiction
                | intros (_ & _ & ? & ? & _); discriminate]).
  rewrite list_elem_of_In, List.filter_In, <- list_elem_of_In, is_spec_file_extension; split.
  - intros (Hin & Hext); repeat split; eauto.
  - intros (_ & _ & files' & [= <-] & Hin & Hext); auto.
Qed.

(** A file of the configured folder that [loadSpecs] can load. *)
Definition loadable_file (w : World.t) (this : Loader.state) (file : string) : Prop :=
  exists folder files,
    Loader.specsFolder this = Some folder /\ folder <> ""
    /\ World.stat w folder = inr true /\ World.access w folder = None
    /\ World.readdir w folder = inr files /\ file ∈ files
    /\ has_spec_extension file
    /\ is_Some (World.parse w (World.path_join w folder file)).

Lemma omap_local_sublist w folder files :
  map (fun s => OpenAPISpec.filename (Loader.entry s)) (omap (local_spec w folder) files)
    `sublist_of` files.
Proof.
  induction files as [|file files IH]; simpl; [constructor|].
  destruct (local_spec w folder file) as [s|] eqn:E; [|apply sublist_cons, IH].
  apply local_spec_inv in E as (spec & _ & Hentry & _); simpl.
  rewrite Hentry; simpl; apply sublist_skip, IH.
Qed.

Lemma filter_sublist {A} (f : A -> bool) (l : list A) : List.filter f l `sublist_of` l.
Proof.
  induction l as [|x l IH]; simpl; [constructor|].
  destruct (f x); [apply sublist_skip | apply sublist_cons]; exact IH.
Qed.

(** X21: the local specs of the registry after [loadSpecs] are the files
    of the configured folder that end in .json, .yaml or .yml and that the
    parser accepts, provided the folder is a readable directory; they are
    named by their file name and keep the order of the directory listing;
    a file the parser rejects is skipped without stopping the others. *)
Theorem local_specs_of_folder w this :
  (forall file,
     (exists s, s ∈ Loader.specs (Loader.loadSpecs w this) /\ is_local s = true
                /\ OpenAPISpec.filename (Loader.entry s) = file)
     <-> loadable_file w this file)
  /\ (forall folder files,
        Loader.specsFolder this = Some folder ->
        World.readdir w folder = inr files ->
        map (fun s => OpenAPISpec.filename (Loader.entry s))
            (List.filter is_local (Loader.specs (Loader.loadSpecs w this)))
          `sublist_of` files).
Proof.
  split.
  - intros file; split.
    + intros (s & Hin & Hlocal & Hname).
      assert (Hs : s ∈ from_folder w this).
      { rewrite <- loadSpecs_local, list_elem_of_In, List.filter_In, <- list_elem_of_In; auto. }
      apply from_folder_inv in Hs as (folder & file' & Hfolder & Hne & Hlisted & E).
      apply local_spec_inv in E as (spec & Hparse & Hentry & _).
      rewrite Hentry in Hname; simpl in Hname; subst file'.
      apply listed_inv in Hlisted as (Hstat & Haccess & files & Hdir & Hfile & Hext).
      exists folder, files; rewrite Hparse; repeat split; eauto.
    + intros (folder & files & Hfolder & Hne & Hstat & Haccess & Hdir & Hfile & Hext
              & spec & Hparse).
      assert (Hs : exists s, local_spec w folder file = Some s
                             /\ OpenAPISpec.filename (Loader.entry s) = file).
      { unfold local_spec; rewrite Hparse; eexists; split; reflexivity. }
      destruct Hs as (s & Hs & Hname).
      assert (Hin : s ∈ from_folder w this).
      { unfold from_folder; rewrite Hfolder.
        destruct folder; [congruence|]; simpl.
        apply list_elem_of_omap; exists file; split; [|exact Hs].
        apply listed_inv; repeat split; eauto. }
      rewrite <- loadSpecs_local, list_elem_of_In, List.filter_In, <- list_elem_of_In in Hin.
      exists s; tauto.
  - intros folder files Hfolder Hdir; rewrite loadSpecs_local.
    unfold from_folder; rewrite Hfolder.
    destruct (nonempty folder); [|apply sublist_nil_l].
    etransitivity; [apply omap_local_sublist|].
    unfold listed; rewrite Hdir.
    destruct (World.stat w folder) as [e|[|]]; try apply sublist_nil_l.
    destruct (World.access w folder); [apply sublist_nil_l | apply filter_sublist].
Qed.

(** A world to run the loader in: two spec URLs that answer, and a folder
    with one spec the parser accepts, one it rejects and one other file. *)
Definition example_document (title : string) : World.document :=
  {| World.spec := [("openapi", JStr "3.0.0"); ("title", JStr title)];
     World.info := None;
     World.paths := None;
     World.components := None |}.

Definition example_world : World.t :=
  {| World.fetch := fun url =>
       if String.eqb url "https://a.example/v1/openapi.json"
          || String.eqb url "https://b.example/v2/openapi.json"
       then Some {| World.ok := true; World.status := 200; World.statusText := "OK";
                    World.json := None |}
       else None;
     World.parse := fun location =>
       if String.eqb location "https://a.example/v1/openapi.json"
       then Some (example_document "a")
       else if String.eqb location "https://b.example/v2/openapi.json"
       then Some (example_document "b")
       else if String.eqb location "/specs/pets.yaml"
       then Some (example_document "pets")
       else None;
     World.stat := fun location =>
       if String.eqb location "/specs" then inr true else inl World.ENOENT;
     World.access := fun _ => None;
     World.readdir := fun location =>
       if String.eqb location "/specs" then inr ["notes.txt"; "pets.yaml"; "broken.json"]
       else inl World.ENOENT;
     World.path_join := fun folder file => folder +:+ "/" +:+ file |}.

Definition example_analyzer : Loader.state :=
  Loader.constructor
    {| Loader.OPENAPI_DISCOVERY_URL := None;
       Loader.OPENAPI_SPEC_URLS := None;
       Loader.OPENAPI_SPECS_FOLDER := None |}
    (Some {| Loader.opt_discoveryUrl := None;
             Loader.opt_specUrls := Some ["https://a.example/v1/openapi.json";
                                          "https://b.example/v2/openapi.json"];
             Loader.opt_specsFolder := Some "/specs" |}).

Lemma local_specs_of_folder_witness :
  map (fun s => OpenAPISpec.filename (Loader.entry s))
      (List.filter is_local (Loader.specs (Loader.loadSpecs example_world example_analyzer)))
    `sublist_of` ["notes.txt"; "pets.yaml"; "broken.json"].
Proof.
  apply (proj2 (local_specs_of_folder example_world example_analyzer) "/specs");
    reflexivity.
Defined.

(** ** The URL of a remote spec *)

(** A property type that names an OpenAPI document, in any case. *)
Definition spec_type (type : string) : Prop :=
  case_variant type "swagger" \/ case_variant type "openapi".

Lemma spec_type_test type :
  String.eqb (toLowerCase type) "swagger" || String.eqb (toLowerCase type) "openapi" = true
  <-> spec_type type.
Proof.
  unfold spec_type; rewrite orb_true_iff, !String.eqb_eq; split.
  - intros [H|H]; [left|right]; apply toLowerCase_case_variant; rewrite H; reflexivity.
  - intros [H|H]; [left|right]; apply case_variant_toLowerCase in H; exact H.
Qed.

Lemma find_first {A} (f : A -> bool) before x after :
  Forall (fun y => f y <> true) before -> f x = true ->
  List.find f (before ++ x :: after) = Some x.
Proof.
  induction 1 as [|y before Hy _ IH]; intros Hx; simpl.
  - rewrite Hx; reflexivity.
  - destruct (f y); [congruence | apply IH, Hx].
Qed.

Lemma find_absent {A} (f : A -> bool) l :
  Forall (fun y => f y <> true) l -> List.find f l = None.
Proof.
  induction 1 as [|y l Hy _ IH]; simpl; [reflexivity|].
  destruct (f y); [congruence | exact IH].
Qed.

(** X22: the URL a registry entry is loaded from.  A non-empty [spec_url]
    wins whatever the properties are; without it the URL is that of the
    first property whose type is swagger or openapi in any letter case,
    also when a later property matches too; an entry with neither has no
    URL, and an entry whose URL is missing or empty is never loaded. *)
Theorem spec_url_of_choice :
  (forall apiInfo url,
     ApiInfo.spec_url apiInfo = Some url -> url <> "" ->
     Loader.spec_url_of apiInfo = Some url)
  /\ (forall apiInfo before p after,
        Server.missing (ApiInfo.spec_url apiInfo) = true ->
        ApiInfo.properties apiInfo = Some (before ++ p :: after) ->
        Forall (fun q => ~ spec_type (ApiInfo.type q)) before ->
        spec_type (ApiInfo.type p) ->
        Loader.spec_url_of apiInfo = Some (ApiInfo.url p))
  /\ (forall apiInfo,
        Server.missing (ApiInfo.spec_url apiInfo) = true ->
        match ApiInfo.properties apiInfo with
        | Some properties => Forall (fun q => ~ spec_type (ApiInfo.type q)) properties
        | None => True
        end ->
        Loader.spec_url_of apiInfo = None)
  /\ (forall w apiInfo,
        Server.missing (Loader.spec_url_of apiInfo) = true ->
        remote_spec w apiInfo = None
        /\ forall this, Loader.loadSingleRemoteSpec w apiInfo this = this).
Proof.
  refine (conj _ (conj _ (conj _ _))).
  - intros apiInfo url E Hne; unfold Loader.spec_url_of; rewrite E.
    destruct url; [congruence | reflexivity].
  - intros apiInfo before p after Hmissing Hprops Hbefore Hp.
    unfold Loader.spec_url_of; rewrite Hmissing, Hprops; simpl.
    rewrite (find_first _ before p after); [reflexivity | | apply spec_type_test, Hp].
    eapply Forall_impl; [exact Hbefore|]; intros q Hq; simpl.
    rewrite spec_type_test; exact Hq.
  - intros apiInfo Hmissing Hprops.
    unfold Loader.spec_url_of; rewrite Hmissing; simpl.
    destruct (ApiInfo.properties apiInfo) as [properties|]; [|reflexivity].
    rewrite find_absent; [reflexivity|].
    eapply Forall_impl; [exact Hprops|]; intros q Hq; simpl.
    rewrite spec_type_test; exact Hq.
  - intros w apiInfo Hmissing.
    assert (H : remote_spec w apiInfo = None).
    { unfold remote_spec.
      destruct (Loader.spec_url_of apiInfo) as [[|c url]|]; try reflexivity; discriminate. }
    split; [exact H|]; intros this; rewrite loadSingleRemoteSpec_push, H; reflexivity.
Qed.

Lemma spec_url_of_choice_witness :
  Loader.spec_url_of
    {| ApiInfo.name := "pets"; ApiInfo.baseURL := None; ApiInfo.version := None;
       ApiInfo.description := None;
       ApiInfo.properties :=
         Some [ {| ApiInfo.type := "Documentation"; ApiInfo.url := "https://a.example/docs" |};
                {| ApiInfo.type := "OpenAPI"; ApiInfo.url := "https://a.example/v1/openapi.json" |};
                {| ApiInfo.type := "swagger"; ApiInfo.url := "https://a.example/v1/swagger.json" |} ];
       ApiInfo.spec_url := Some "";
       ApiInfo.docs_url := None; ApiInfo.status := None; ApiInfo.tags := None |}
  = Some "https://a.example/v1/openapi.json".
Proof.
  apply (proj1 (proj2 spec_url_of_choice) _
           [ {| ApiInfo.type := "Documentation"; ApiInfo.url := "https://a.example/docs" |} ]
           {| ApiInfo.type := "OpenAPI"; ApiInfo.url := "https://a.example/v1/openapi.json" |}
           [ {| ApiInfo.type := "swagger"; ApiInfo.url := "https://a.example/v1/swagger.json" |} ]).
  - reflexivity.
  - reflexivity.
  - repeat constructor.
    intros [H|H]; apply case_variant_toLowerCase in H; vm_compute in H; discriminate H.
  - right; apply toLowerCase_case_variant; reflexivity.
Defined.

(** Where a remote spec of the registry comes from. *)
Definition remote_origin (w : World.t) (this : Loader.state) (s : Loader.loaded) : Prop :=
  exists apiInfo specUrl response spec,
    ((exists url apis, Loader.discoveryUrl this = Some url
                       /\ discovered w url = Some apis /\ apiInfo ∈ apis)
     \/ (specUrl ∈ Loader.specUrls this /\ apiInfo = Loader.url_entry specUrl
         /\ ApiInfo.name apiInfo = remote_name specUrl))
    /\ Loader.spec_url_of apiInfo = Some specUrl /\ specUrl <> ""
    /\ World.fetch w specUrl = Some response /\ World.ok response = true
    /\ World.parse w specUrl = Some spec
    /\ Loader.entry s =
         {| OpenAPISpec.filename := ApiInfo.name apiInfo;
            OpenAPISpec.spec := World.spec spec;
            OpenAPISpec.info := World.info spec;
            OpenAPISpec.paths := World.paths spec;
            OpenAPISpec.components := World.components spec |}
    /\ Loader.source s = Some {| Source.type := Source.Remote;
                                 Source.url := Some specUrl;
                                 Source.apiInfo := Some apiInfo |}.

(** X23: every spec of the registry after [loadSpecs] that is not local
    is of type remote and records the registry entry and the non-empty
    URL it was read from; that URL answered the fetch with an ok status
    and was accepted by the parser, whose document the spec holds; the
    spec is named after its registry entry, which for a configured URL is
    the last segment of the URL. *)
Theorem remote_specs_provenance w this s :
  s ∈ Loader.specs (Loader.loadSpecs w this) -> is_local s = false ->
  remote_origin w this s.
Proof.
  rewrite loadSpecs_specs, !elem_of_app; intros [H|[H|H]] Hlocal.
  - apply from_discovery_remote in H as (url & apis & apiInfo & Hurl & Hapis & Hin & E).
    apply remote_spec_inv in E as (specUrl & response & spec & E).
    exists apiInfo, specUrl, response, spec; split; [left; eauto | exact E].
  - apply from_urls_remote in H as (url & Hin & E).
    apply remote_spec_inv in E as (specUrl & response & spec & E).
    assert (Hu : specUrl = url).
    { destruct E as (E & Hne & _); unfold Loader.spec_url_of, Loader.url_entry in E.
      simpl in E; destruct url; simpl in E; congruence. }
    subst specUrl.
    exists (Loader.url_entry url), url, response, spec; split; [right; auto | exact E].
  - exfalso.
    apply from_folder_inv in H as (folder & file & _ & _ & _ & E).
    apply local_spec_inv in E as (spec & _ & _ & E).
    unfold is_local in Hlocal; rewrite E in Hlocal; discriminate.
Qed.

Lemma remote_specs_provenance_witness :
  remote_origin example_world example_analyzer
    {| Loader.entry :=
         {| OpenAPISpec.filename := "openapi.json";
            OpenAPISpec.spec := [("openapi", JStr "3.0.0"); ("title", JStr "b")];
            OpenAPISpec.info := None;
            OpenAPISpec.paths := None;
            OpenAPISpec.components := None |};
       Loader.source :=
         Some {| Source.type := Source.Remote;
                 Source.url := Some "https://b.example/v2/openapi.json";
                 Source.apiInfo :=
                   Some (Loader.url_entry "https://b.example/v2/openapi.json") |} |}.
Proof.
  apply remote_specs_provenance; [|reflexivity].
  apply list_elem_of_In; vm_compute; right; left; reflexivity.
Defined.

(** ** Specs with the same name *)

(** A URL that [loadSingleRemoteSpec] can load, and its document. *)
Definition answers (w : World.t) (url : string) (spec : World.document) : Prop :=
  url <> ""
  /\ (exists response, World.fetch w url = Some response /\ World.ok response = true)
  /\ World.parse w url = Some spec.

Lemma remote_spec_answers w url spec :
  answers w url spec ->
  remote_spec w (Loader.url_entry url) =
  Some {| Loader.entry :=
            {| OpenAPISpec.filename := remote_name url;
               OpenAPISpec.spec := World.spec spec;
               OpenAPISpec.info := World.info spec;
               OpenAPISpec.paths := World.paths spec;
               OpenAPISpec.components := World.components spec |};
          Loader.source :=
            Some {| Source.type := Source.Remote;
                    Source.url := Some url;
                    Source.apiInfo := Some (Loader.url_entry url) |} |}.
Proof.
  intros (Hne & (response & Hfetch & Hok) & Hparse).
  unfold remote_spec, Loader.spec_url_of; simpl.
  destruct url as [|c url]; [congruence|]; simpl.
  rewrite Hfetch, Hok, Hparse; reflexivity.
Qed.

(** X24: the loader does not make names unique.  When only two URLs are
    configured, both load and they end in the same segment, the registry
    holds two specs with that one name, in the order of the URLs, and
    [getSpecByFilename] answers the name with the document of the first
    URL, so the second document cannot be reached by name. *)
Theorem url_name_clash w this url1 url2 spec1 spec2 :
  Server.missing (Loader.discoveryUrl this) = true ->
  Server.missing (Loader.specsFolder this) = true ->
  Loader.specUrls this = [url1; url2] ->
  remote_name url1 = remote_name url2 ->
  answers w url1 spec1 -> answers w url2 spec2 ->
  let registry := Analyzer.specs (Loader.view (Loader.loadSpecs w this)) in
  map OpenAPISpec.filename registry = [remote_name url1; remote_name url1]
  /\ map OpenAPISpec.spec registry = [World.spec spec1; World.spec spec2]
  /\ getSpecByFilename registry (remote_name url1) = Some (World.spec spec1)
  /\ map ApiSummary.filename (listAllSpecs registry) = [remote_name url1; remote_name url1].
Proof.
  intros Hd Hf Hurls Hname H1 H2 registry.
  assert (Hreg : registry =
            map Loader.entry
              (omap (fun url => remote_spec w (Loader.url_entry url)) [url1; url2])).
  { subst registry; unfold Loader.view; simpl; rewrite loadSpecs_specs.
    replace (from_discovery w this) with (@nil Loader.loaded).
    2:{ unfold from_discovery; destruct (Loader.discoveryUrl this) as [[|]|];
          try reflexivity; discriminate. }
    replace (from_folder w this) with (@nil Loader.loaded).
    2:{ unfold from_folder; destruct (Loader.specsFolder this) as [[|]|];
          try reflexivity; discriminate. }
    unfold from_urls; rewrite Hurls, app_nil_r; reflexivity. }
  simpl in Hreg.
  rewrite (remote_spec_answers w url1 spec1 H1), (remote_spec_answers w url2 spec2 H2) in Hreg.
  rewrite Hreg, <- Hname; simpl.
  refine (conj eq_refl (conj eq_refl (conj _ eq_refl))).
  unfold getSpecByFilename; simpl; rewrite String.eqb_refl; reflexivity.
Qed.

Lemma url_name_clash_witness :
  getSpecByFilename
    (Analyzer.specs
       (Loader.view
          (Loader.loadSpecs example_world
             {| Loader.specs := []; Loader.loadedSources := [];
                Loader.discoveryUrl := None;
                Loader.specUrls := ["https://a.example/v1/openapi.json";
                                    "https://b.example/v2/openapi.json"];
                Loader.specsFolder := None |})))
    "openapi.json"
  = Some [("openapi", JStr "3.0.0"); ("title", JStr "a")].
Proof.
  apply (url_name_clash example_world _
           "https://a.example/v1/openapi.json" "https://b.example/v2/openapi.json"
           (example_document "a") (example_document "b"));
    try reflexivity;
    (split; [discriminate | split; [eexists; split; reflexivity | reflexivity]]).
Defined.

(** ** An analyzer without a source *)

(** X25: [validateConfiguration] lets the process go on exactly when the
    analyzer built from the environment has a discovery URL, a non-empty
    URL list or a folder; without any of them [loadSpecs] leaves the
    analyzer as it was built, with no spec and no source recorded,
    whatever the network and the disk hold. *)
Theorem validateConfiguration_sources e :
  let analyzer := Loader.constructor e None in
  (Loader.validateConfiguration e = true <->
     Server.missing (Loader.discoveryUrl analyzer) = false
     \/ Loader.specUrls analyzer <> []
     \/ Server.missing (Loader.specsFolder analyzer) = false)
  /\ (Loader.validateConfiguration e = false ->
      forall w, Loader.loadSpecs w analyzer = analyzer).
Proof.
  intros analyzer; subst analyzer.
  unfold Loader.validateConfiguration, Loader.constructor; simpl.
  destruct (Server.missing (Loader.OPENAPI_DISCOVERY_URL e)) eqn:Hd;
    destruct (SPEC_URLS (Loader.OPENAPI_SPEC_URLS e)) as [|url urls] eqn:Hu;
    destruct (Server.missing (Loader.OPENAPI_SPECS_FOLDER e)) eqn:Hf; simpl;
    (split; [split|]);
    try (intros Hv; discriminate Hv);
    try (intros _; reflexivity);
    try (intros _;
         first [left; reflexivity | right; left; discriminate | right; right; reflexivity]).
  - intros [H|[H|H]]; congruence.
  - intros _ w; unfold Loader.loadSpecs, Loader.reset; simpl.
    rewrite Hd; simpl; rewrite Hf; reflexivity.
Qed.

Lemma validateConfiguration_sources_witness :
  Loader.loadSpecs example_world
    (Loader.constructor
       {| Loader.OPENAPI_DISCOVERY_URL := None;
          Loader.OPENAPI_SPEC_URLS := Some " , ,";
          Loader.OPENAPI_SPECS_FOLDER := Some "" |} None)
  = Loader.constructor
      {| Loader.OPENAPI_DISCOVERY_URL := None;
         Loader.OPENAPI_SPEC_URLS := Some " , ,";
         Loader.OPENAPI_SPECS_FOLDER := Some "" |} None.
Proof.
  apply (proj2 (validateConfiguration_sources
                  {| Loader.OPENAPI_DISCOVERY_URL := None;
                     Loader.OPENAPI_SPEC_URLS := Some " , ,";
                     Loader.OPENAPI_SPECS_FOLDER := Some "" |})).
  reflexivity.
Defined.
